(** * Blog demo scripts: a shallow embedding and its properties

    The repository holds three standalone Python scripts:
    - [posts/kedro-index-partitioned-dataset.py]: looks partitions of a
      kedro [PartitionedDataSet] up by key ([filter_datasets]);
    - [posts/pydantic-and-nested-relationships.py]: a two-table SQLAlchemy
      schema projected through pydantic serializers;
    - [live_reload.py]: a livereload server watching the blog sources.

    Python values are embedded as an inductive type, exceptions as an
    error result, and statements as state-passing computations over the
    part of the process state the scripts touch. *)

From Stdlib Require Import ZArith Ascii String List Permutation Sorted Lia.
From stdpp Require Import base list.
Import ListNotations.

Local Open Scope string_scope.
Local Open Scope list_scope.

#[local] Set Warnings "-register-all".

(** ** Python values, exceptions and computations *)

Module Py.

(** The JSON-like fragment of Python values the scripts handle.  A [dict]
    keeps its insertion order, so it is an association list. *)
Inductive pyval : Type :=
| PyNone
| PyInt (z : Z)
| PyStr (s : string)
| PyList (items : list pyval)
| PyDict (entries : list (string * pyval)).

Inductive exn : Type :=
| AttributeError (attr : string)
| ValidationError (field : string)
| DataSetError (path : string)
| TypeError (what : string)
| OtherError (what : string).

(** A call either returns or raises. *)
Inductive outcome (A : Type) : Type :=
| Returned (a : A)
| Raised (e : exn).
Arguments Returned {A} a.
Arguments Raised {A} e.

(** Computations over a state [W]; an exception aborts what follows. *)
Definition M (W A : Type) : Type := W -> outcome A * W.

Definition ret {W A} (a : A) : M W A := fun w => (Returned a, w).

Definition raise {W A} (e : exn) : M W A := fun w => (Raised e, w).

Definition bind {W A B} (m : M W A) (k : A -> M W B) : M W B :=
  fun w =>
    match m w with
    | (Returned a, w') => k a w'
    | (Raised e, w') => (Raised e, w')
    end.

(** [for x in xs: body(x)] *)
Fixpoint for_each {W A} (xs : list A) (body : A -> M W unit) : M W unit :=
  match xs with
  | [] => ret tt
  | x :: rest => bind (body x) (fun _ => for_each rest body)
  end.

(** Lookup in a [dict] literal or value: the first entry with the key. *)
Fixpoint assoc {V} (key : string) (entries : list (string * V)) : option V :=
  match entries with
  | [] => None
  | (k, v) :: rest => if String.eqb k key then Some v else assoc key rest
  end.

(** [d.get(key, default)] on a dict. *)
Definition dict_get (entries : list (string * pyval)) (key : string)
           (default : pyval) : pyval :=
  match assoc key entries with
  | Some v => v
  | None => default
  end.

(** [obj.get(key, default)] on any value: only a dict has the method, the
    other values of the fragment raise [AttributeError]. *)
Definition get {W} (obj : pyval) (key : string) (default : pyval) : M W pyval :=
  match obj with
  | PyDict entries => ret (dict_get entries key default)
  | _ => raise (AttributeError "get")
  end.

(** Text is kept as its bytes.  [ascii_only] holds of the strings whose
    bytes are all below 128, the ASCII strings. *)
Definition ascii_only_char (c : ascii) : bool := (nat_of_ascii c <? 128)%nat.

Fixpoint ascii_only (s : string) : bool :=
  match s with
  | EmptyString => true
  | String c rest => ascii_only_char c && ascii_only rest
  end.

(** [str.lower()] on ASCII strings: the letters A-Z are mapped to a-z and
    every other character is kept.  Beyond ASCII the letters Python
    lowercases are not modelled: what is stated of [lower s] is stated
    under [ascii_only s]. *)
Definition is_upper (c : ascii) : bool :=
  (65 <=? nat_of_ascii c)%nat && (nat_of_ascii c <=? 90)%nat.

Definition lower_char (c : ascii) : ascii :=
  if is_upper c then ascii_of_nat (nat_of_ascii c + 32) else c.

Fixpoint lower (s : string) : string :=
  match s with
  | EmptyString => EmptyString
  | String c rest => String (lower_char c) (lower rest)
  end.


End Py.

Import Py.

Declare Scope py_scope.
Delimit Scope py_scope with py.
Notation "'let*' x ':=' m 'in' k" := (bind m (fun x => k))
  (at level 10, x name, m at level 100, k at level 200) : py_scope.

(** ** live_reload.py *)

Module LiveReload.

(** The callable returned by [shell(cmd)]: it runs the command. *)
Inductive task : Type :=
| shell (cmd : string).

(** One entry of the server's watcher. *)
Record watched : Type := mkWatched {
  filepath : string;
  func : task;
  delay : option Z
}.

(** A [Server] object: the tasks of its watcher, in the order the paths
    were first registered. *)
Record Server : Type := mkServer {
  watches : list watched
}.

Definition new_Server : Server := mkServer [].

(** The watcher keeps its tasks in a dict keyed by the path: a path
    registered again replaces its earlier task. *)
Fixpoint set_task (t : watched) (tasks : list watched) : list watched :=
  match tasks with
  | [] => [t]
  | t' :: rest =>
      if String.eqb (filepath t') (filepath t) then t :: rest
      else t' :: set_task t rest
  end.

(** [server.watch(filepath, func, delay=delay)] *)
Definition watch (server : Server) (pattern : string) (f : task) (d : Z) : Server :=
  mkServer (set_task (mkWatched pattern f (Some d)) (watches server)).

(** What [server.serve] is started with: the server and the keyword
    arguments of the call.  An argument which is not given is [None] and
    the library's default applies: for [host] the loopback address, for
    [port] the library's fixed local port. *)
Record serving : Type := mkServing {
  served_by : Server;
  root : option string;
  host : option string;
  port : option Z
}.

End LiveReload.

(** ** The process a script runs in *)

Module Process.

(** The part of the process state the scripts act on: the argument list
    the interpreter was started with, what [print] wrote (one entry per
    call, holding the evaluated arguments), and the web server the
    process runs, if any. *)
Record world : Type := mkWorld {
  sys_argv : list string;
  stdout : list (list pyval);
  web_server : option LiveReload.serving
}.

Definition start (argv : list string) : world := mkWorld argv [] None.

Definition print (args : list pyval) : M world unit :=
  fun w => (Returned tt, mkWorld (sys_argv w) (stdout w ++ [args]) (web_server w)).

(** [server.serve(root=root)] hands the process to the library's event
    loop.  The model records what the loop is started with; the call
    returns when the loop is stopped. *)
Definition serve (server : LiveReload.Server) (root : string) : M world unit :=
  fun w =>
    (Returned tt,
     mkWorld (sys_argv w) (stdout w)
             (Some (LiveReload.mkServing server (Some root) None None))).

(** What a run shows from outside. *)
Definition behaviour (r : outcome unit * world)
  : outcome unit * list (list pyval) * option LiveReload.serving :=
  (fst r, stdout (snd r), web_server (snd r)).

Definition script : Type := M world unit.

End Process.

Import Process.

Module LiveReloadMain.
Import LiveReload.

(** The statements of the script, one binding per statement: [watch]
    updates the server object in place. *)
Definition main : script :=
  let server := new_Server in
  let server := watch server "*.md" (shell "ablog build") 1 in
  let server := watch server "posts/*.md" (shell "ablog build") 1 in
  let server := watch server "*.py" (shell "ablog build") 1 in
  let server := watch server "_static/*" (shell "ablog build") 1 in
  let server := watch server "_templates/*" (shell "ablog build") 1 in
  serve server "docs/".

End LiveReloadMain.

(** ** posts/kedro-index-partitioned-dataset.py *)

Module Kedro.

Section FilterDatasets.

Context {W : Type}.

(** A partition load function: a callable of no argument. *)
Definition load_func : Type := M W pyval.

(** What [PartitionedDataSet.load()] returns, in iteration order. *)
Definition loaded_dataset : Type := list (string * load_func).

(** [filter_datasets]: the loop returns from inside its body at the first
    key equal to [filter]; after the loop the empty dict is returned. *)
Fixpoint filter_datasets (loaded_partitioned_dataset : loaded_dataset)
         (filter : string) : M W pyval :=
  match loaded_partitioned_dataset with
  | [] => ret (PyDict [])
  | (key, partition_load_func) :: rest =>
      if String.eqb key filter
      then partition_load_func
      else filter_datasets rest filter
  end.

End FilterDatasets.

Arguments load_func W : clear implicits.
Arguments loaded_dataset W : clear implicits.

(** *** Recording load functions

    To observe which load functions a call invokes, every entry is
    replaced by one that first notes its position in a log kept next to
    the state. *)
Section Spy.

Context {W : Type}.

Definition spy (pos : nat) (f : load_func W) : load_func (list nat * W) :=
  fun lw =>
    match f (snd lw) with
    | (r, w') => (r, (fst lw ++ [pos], w'))
    end.

Fixpoint spied_from (pos : nat) (items : loaded_dataset W)
  : loaded_dataset (list nat * W) :=
  match items with
  | [] => []
  | (key, f) :: rest => (key, spy pos f) :: spied_from (S pos) rest
  end.

Definition spied (items : loaded_dataset W) : loaded_dataset (list nat * W) :=
  spied_from 0 items.

(** Position of the first entry whose key equals [filter]. *)
Fixpoint first_match_from (pos : nat) (items : loaded_dataset W)
         (filter : string) : option nat :=
  match items with
  | [] => None
  | (key, _) :: rest =>
      if String.eqb key filter then Some pos
      else first_match_from (S pos) rest filter
  end.

Definition first_match (items : loaded_dataset W) (filter : string) : option nat :=
  first_match_from 0 items filter.

(** The positions logged by a call on the recording entries. *)
Definition invoked (items : loaded_dataset W) (filter : string) (w : W) : list nat :=
  fst (snd (filter_datasets (spied items) filter ([], w))).

End Spy.

(** *** The partitioned dataset of the script

    The library keeps one JSON file per partition under the dataset path,
    and lists the directory in sorted order. *)
Definition directory : Type := list (string * pyval).

Fixpoint write_file (name : string) (data : pyval) (dir : directory) : directory :=
  match dir with
  | [] => [(name, data)]
  | (n, d) :: rest =>
      match String.compare name n with
      | Lt => (name, data) :: (n, d) :: rest
      | Eq => (name, data) :: rest
      | Gt => (n, d) :: write_file name data rest
      end
  end.

(** [sorted(data.items())]: the entries of the dict by ascending key.  In
    the list standing for the dict a key given again takes the later
    value, as in a dict. *)
Definition sorted_items (data : list (string * pyval)) : list (string * pyval) :=
  fold_left (fun acc kv => write_file (fst kv) (snd kv) acc) data [].

(** Saving one partition: [None] is refused and no file is written for
    it; any other value of the fragment is written as JSON. *)
Definition save_partition (kv : string * pyval) : M directory unit :=
  fun dir =>
    match snd kv with
    | PyNone => (Raised (DataSetError "Saving None is not allowed"), dir)
    | data => (Returned tt, write_file (fst kv) data dir)
    end.

(** [partitioned_dataset.save(data)]: the partitions are saved one by one
    in the order of their keys; the first refusal ends the call, the files
    written before it stay. *)
Definition save (data : list (string * pyval)) : M directory unit :=
  for_each (sorted_items data) save_partition.

(** The dict of load functions for the files of a directory: each one
    reads its file and returns the value saved in it. *)
Definition loaders (dir : directory) : loaded_dataset world :=
  map (fun kv => (fst kv, ret (snd kv))) dir.

(** [partitioned_dataset.load()]: the load functions of the partitions
    found; a directory without partitions is an error. *)
Definition load (dir : directory) : outcome (loaded_dataset world) :=
  match dir with
  | [] => Raised (DataSetError "No partitions found")
  | _ => Returned (loaders dir)
  end.

(** The three [save] calls of the script. *)
Definition florian : string * pyval :=
  ("florian", PyDict [("is", PyStr "He is the boss!")]).
Definition flavien : string * pyval :=
  ("flavien", PyDict [("is", PyStr "I am the boss...of JIRA!")]).
Definition julien : string * pyval :=
  ("julien", PyDict [("is", PyStr "He is my boss...Oh, wait, no it's Aymeric now!")]).

Definition three_saves : M directory unit :=
  (let* first := save [florian] in
   let* second := save [flavien] in
   save [julien])%py.

(** The directory the three calls leave, from the empty one. *)
Definition saved_directory : directory := snd (three_saves []).

Definition first_names : list string := ["Florian"; "Julien"; "Flavien"].

(** The body of the final loop, for one first name. *)
Definition who_is (loaded : loaded_dataset world) (first_name : string) : script :=
  (let* found := filter_datasets loaded (lower first_name) in
   let* answer := get found "is" PyNone in
   print [PyStr ("Who is " ++ first_name ++ "?"); answer])%py.

Definition main_loop (loaded : loaded_dataset world) (names : list string)
  : script :=
  for_each names (who_is loaded).

(** The script from [load] on: the dataset of the directory is loaded and
    queried for each name.  The files written so far are not touched. *)
Definition queries (dir : directory) (names : list string) : script :=
  fun w =>
    match load dir with
    | Returned loaded_partitioned_dataset =>
        main_loop loaded_partitioned_dataset names w
    | Raised e => (Raised e, w)
    end.

(** The script: the dataset is saved to in three calls, released, loaded,
    and queried for each first name. *)
Definition main : script :=
  fun w =>
    let temporary_directory : directory := [] in
    match three_saves temporary_directory with
    | (Returned _, partitioned_dataset) => queries partitioned_dataset first_names w
    | (Raised e, _) => (Raised e, w)
    end.



End Kedro.

(** ** posts/pydantic-and-nested-relationships.py *)

Module Orm.

(** *** The declared schema *)

Inductive sqltype : Type := Integer | Text.

(** A [Column(...)] declaration.  [nullable_arg] is the [nullable=]
    argument when it is given. *)
Record Column : Type := mkColumn {
  col_name : string;
  col_type : sqltype;
  primary_key : bool;
  nullable_arg : option bool;
  foreign_key : option (string * string)
}.

(** Without a [nullable=] argument a column is nullable unless it is part
    of the primary key. *)
Definition nullable (c : Column) : bool :=
  match nullable_arg c with
  | Some b => b
  | None => negb (primary_key c)
  end.

(** A [relationship(target, back_populates=...)] attribute. *)
Record Relationship : Type := mkRelationship {
  rel_name : string;
  rel_target : string;
  back_populates : string
}.

(** A class derived from [Base]. *)
Record Mapped : Type := mkMapped {
  class_name : string;
  tablename : string;
  columns : list Column;
  relationships : list Relationship
}.

Definition User : Mapped :=
  mkMapped "User" "user"
    [ mkColumn "id" Integer true None None;
      mkColumn "name" Text false (Some false) None ]
    [ mkRelationship "comments" "Comment" "user" ].

Definition Comment : Mapped :=
  mkMapped "Comment" "comment"
    [ mkColumn "id" Integer true None None;
      mkColumn "comment" Text false (Some false) None;
      mkColumn "user_id" Integer false None (Some ("user", "id")) ]
    [ mkRelationship "user" "User" "comments" ].

(** [Base.metadata]: the classes in declaration order. *)
Definition metadata : list Mapped := [User; Comment].

(** The columns that carry data of their own: neither key nor reference. *)
Definition data_columns (m : Mapped) : list Column :=
  List.filter (fun c => negb (primary_key c) &&
                        match foreign_key c with Some _ => false | None => true end)
              (columns m).

Definition find_class (name : string) : option Mapped :=
  List.find (fun m => String.eqb (class_name m) name) metadata.

Definition find_table (name : string) : option Mapped :=
  List.find (fun m => String.eqb (tablename m) name) metadata.

Definition find_column (m : Mapped) (name : string) : option Column :=
  List.find (fun c => String.eqb (col_name c) name) (columns m).

(** [r], declared on class [m], is matched by a relationship of its target
    class which points back to [m] and names [r], and which [r] names. *)
Definition bidirectional (m : Mapped) (r : Relationship) : bool :=
  match find_class (rel_target r) with
  | Some target =>
      existsb (fun r' => String.eqb (rel_name r') (back_populates r) &&
                         String.eqb (rel_target r') (class_name m) &&
                         String.eqb (back_populates r') (rel_name r))
              (relationships target)
  | None => false
  end.

(** The column a foreign key refers to. *)
Definition referenced (c : Column) : option (Mapped * Column) :=
  match foreign_key c with
  | Some (t, k) =>
      match find_table t with
      | Some m =>
          match find_column m k with
          | Some c' => Some (m, c')
          | None => None
          end
      | None => None
      end
  | None => None
  end.

(** *** Rows, objects and the session *)

Record user_row : Type := mkUserRow {
  row_id : Z;
  row_name : string
}.

Record comment_row : Type := mkCommentRow {
  crow_id : Z;
  crow_comment : string;
  crow_user_id : option Z
}.

Record database : Type := mkDatabase {
  user_table : list user_row;
  comment_table : list comment_row
}.

(** The key given to a row inserted without one: one more than the
    largest key of the table, 1 in an empty table. *)
Definition next_id (ids : list Z) : Z := (1 + fold_right Z.max 0 ids)%Z.

(** Instances of the mapped classes.  Objects refer to each other, and a
    [Comment] built with [user=...] is appended to that user's [comments],
    so the objects live in a store and are named by their position. *)
Record UserObject : Type := mkUserObject {
  u_id : option Z;
  u_name : string;
  u_comments : list nat
}.

Record CommentObject : Type := mkCommentObject {
  c_id : option Z;
  c_comment : string;
  c_user_id : option Z;
  c_user : option nat
}.

Record state : Type := mkState {
  user_objects : list UserObject;
  comment_objects : list CommentObject;
  session : list nat;
  db : database
}.

(** After [create_all] on a fresh in-memory engine: empty tables. *)
Definition initial : state := mkState [] [] [] (mkDatabase [] []).

(** [User(name=name)] *)
Definition new_User (name : string) (st : state) : nat * state :=
  (length (user_objects st),
   mkState (user_objects st ++ [mkUserObject None name []])
           (comment_objects st) (session st) (db st)).

(** [Comment(comment=comment, user=user)]: the new object is also appended
    to [user.comments] ([back_populates]). *)
Definition new_Comment (comment : string) (user : nat) (st : state) : nat * state :=
  let c := length (comment_objects st) in
  (c,
   mkState (alter (fun u => mkUserObject (u_id u) (u_name u) (u_comments u ++ [c]))
                  user (user_objects st))
           (comment_objects st ++ [mkCommentObject None comment None (Some user)])
           (session st) (db st)).

(** [session.add(user)] *)
Definition session_add (user : nat) (st : state) : state :=
  mkState (user_objects st) (comment_objects st)
          (if existsb (Nat.eqb user) (session st) then session st
           else session st ++ [user])
          (db st).

(** Flushing a comment reached from a user of the session: a comment not
    yet stored takes the user's key as [user_id] and is inserted. *)
Definition flush_comment (uid : Z) (c : nat) (st : state) : state :=
  match comment_objects st !! c with
  | None => st
  | Some obj =>
      match c_id obj with
      | Some _ => st
      | None =>
          let i := next_id (map crow_id (comment_table (db st))) in
          mkState (user_objects st)
                  (<[c := mkCommentObject (Some i) (c_comment obj) (Some uid) (c_user obj)]>
                     (comment_objects st))
                  (session st)
                  (mkDatabase (user_table (db st))
                              (comment_table (db st) ++
                               [mkCommentRow i (c_comment obj) (Some uid)]))
      end
  end.

(** Storing a user of the session: a row is inserted unless the object
    already has a key. *)
Definition flush_insert_user (u : nat) (obj : UserObject) (st : state) : Z * state :=
  match u_id obj with
  | Some i => (i, st)
  | None =>
      let i := next_id (map row_id (user_table (db st))) in
      (i,
       mkState (<[u := mkUserObject (Some i) (u_name obj) (u_comments obj)]>
                  (user_objects st))
               (comment_objects st) (session st)
               (mkDatabase (user_table (db st) ++ [mkUserRow i (u_name obj)])
                           (comment_table (db st))))
  end.

(** Flushing a user: the user first, then the comments of its collection. *)
Definition flush_user (st : state) (u : nat) : state :=
  match user_objects st !! u with
  | None => st
  | Some obj =>
      let (uid, st1) := flush_insert_user u obj st in
      fold_left (fun acc c => flush_comment uid c acc) (u_comments obj) st1
  end.

(** [session.commit()] *)
Definition session_commit (st : state) : state :=
  fold_left flush_user (session st) st.

(** The statements the script runs against the session. *)
Inductive op : Type :=
| NewUser (name : string)
| NewComment (comment : string) (user : nat)
| SessionAdd (user : nat)
| SessionCommit.

Definition step (st : state) (o : op) : state :=
  match o with
  | NewUser name => snd (new_User name st)
  | NewComment comment user => snd (new_Comment comment user st)
  | SessionAdd user => session_add user st
  | SessionCommit => session_commit st
  end.

Definition run (ops : list op) (st : state) : state := fold_left step ops st.

(** Every [Comment] row refers to the key of a [User] row. *)
Definition refers_to_user (users : list user_row) (c : comment_row) : Prop :=
  exists uid, crow_user_id c = Some uid /\ In uid (map row_id users).

Definition referential_integrity (d : database) : Prop :=
  Forall (refers_to_user (user_table d)) (comment_table d).

(** An object which carries a key has its row in the table. *)
Definition users_stored (st : state) : Prop :=
  forall u obj i,
    user_objects st !! u = Some obj ->
    u_id obj = Some i ->
    In i (map row_id (user_table (db st))).

Definition consistent (st : state) : Prop :=
  referential_integrity (db st) /\ users_stored st.

End Orm.
(** *** The serializers *)

Module Serializers.
Import Orm.

(** What [from_orm] reads: the attributes of a [Comment] and of a [User],
    the [comments] of a user resolved to the objects. *)
Record orm_comment : Type := mkOrmComment {
  attr_id : option Z;
  attr_comment : string;
  attr_user_id : option Z
}.

Record orm_user : Type := mkOrmUser {
  attr_uid : option Z;
  attr_name : string;
  attr_comments : list orm_comment
}.

Definition read_comment (c : CommentObject) : orm_comment :=
  mkOrmComment (c_id c) (c_comment c) (c_user_id c).

Definition read_user (st : state) (user : nat) : option orm_user :=
  match user_objects st !! user with
  | Some u =>
      Some (mkOrmUser (u_id u) (u_name u)
              (omap (fun c => option_map read_comment (comment_objects st !! c))
                    (u_comments u)))
  | None => None
  end.

(** Validation of a list field: the first failure is the result. *)
Fixpoint validate_all {A B} (f : A -> outcome B) (xs : list A) : outcome (list B) :=
  match xs with
  | [] => Returned []
  | x :: rest =>
      match f x with
      | Returned y =>
          match validate_all f rest with
          | Returned ys => Returned (y :: ys)
          | Raised e => Raised e
          end
      | Raised e => Raised e
      end
  end.

(** An [int] field does not accept [None]. *)
Definition validate_int (field : string) (v : option Z) : outcome Z :=
  match v with
  | Some z => Returned z
  | None => Raised (ValidationError field)
  end.

(** [class CommentSerializer(BaseModel)] *)
Record CommentSerializer : Type := mkCommentSerializer {
  cs_id : Z;
  cs_comment : string;
  cs_user_id : Z
}.

Definition CommentSerializer_from_orm (c : orm_comment) : outcome CommentSerializer :=
  match validate_int "id" (attr_id c) with
  | Returned i =>
      match validate_int "user_id" (attr_user_id c) with
      | Returned u => Returned (mkCommentSerializer i (attr_comment c) u)
      | Raised e => Raised e
      end
  | Raised e => Raised e
  end.

Definition CommentSerializer_dict (c : CommentSerializer) : pyval :=
  PyDict [("id", PyInt (cs_id c)); ("comment", PyStr (cs_comment c));
          ("user_id", PyInt (cs_user_id c))].

(** [class CommentToStringSerializer(BaseModel)] *)
Record CommentToStringSerializer : Type := mkCommentToStringSerializer {
  cts_comment : string
}.

Definition CommentToStringSerializer_from_orm (c : orm_comment)
  : outcome CommentToStringSerializer :=
  Returned (mkCommentToStringSerializer (attr_comment c)).

(** [super().dict( **kwargs)]: the dict of the model's fields. *)
Definition CommentToStringSerializer_super_dict (c : CommentToStringSerializer)
  : list (string * pyval) :=
  [("comment", PyStr (cts_comment c))].

(** The overriding [dict]: [super().dict( **kwargs).get("comment", "")]. *)
Definition CommentToStringSerializer_dict (c : CommentToStringSerializer) : pyval :=
  dict_get (CommentToStringSerializer_super_dict c) "comment" (PyStr "").

(** [class UserSerializer(BaseModel)] *)
Record UserSerializer : Type := mkUserSerializer {
  us_id : Z;
  us_name : string;
  us_comments : list CommentSerializer
}.

Definition UserSerializer_from_orm (u : orm_user) : outcome UserSerializer :=
  match validate_int "id" (attr_uid u) with
  | Returned i =>
      match validate_all CommentSerializer_from_orm (attr_comments u) with
      | Returned cs => Returned (mkUserSerializer i (attr_name u) cs)
      | Raised e => Raised e
      end
  | Raised e => Raised e
  end.

(** [dict()] of a model turns a field holding models into the list of
    their [dict()]. *)
Definition UserSerializer_dict (u : UserSerializer) : pyval :=
  PyDict [("id", PyInt (us_id u)); ("name", PyStr (us_name u));
          ("comments", PyList (map CommentSerializer_dict (us_comments u)))].

(** [class UserWithoutIDSerializer(BaseModel)] *)
Record UserWithoutIDSerializer : Type := mkUserWithoutIDSerializer {
  uw_name : string;
  uw_comments : list CommentToStringSerializer
}.

Definition UserWithoutIDSerializer_from_orm (u : orm_user)
  : outcome UserWithoutIDSerializer :=
  match validate_all CommentToStringSerializer_from_orm (attr_comments u) with
  | Returned cs => Returned (mkUserWithoutIDSerializer (attr_name u) cs)
  | Raised e => Raised e
  end.

(** [needle in s] for two strings. *)
Fixpoint contains (needle s : string) : bool :=
  String.prefix needle s ||
  match s with
  | EmptyString => false
  | String _ rest => contains needle rest
  end.

Definition ROOT_KEY : string := "__root__".

(** What [BaseModel.dict()] does with [v_dict], the value of [v.dict()] for
    a model [v] held in a field: when [ROOT_KEY in v_dict] it takes
    [v_dict[ROOT_KEY]], otherwise [v_dict].  On a dict this is a test on the
    keys.  On the [str] which an overriding [dict] returns it is a test for a
    substring, and indexing the [str] by a [str] raises [TypeError]. *)
Definition get_value (v_dict : pyval) : outcome pyval :=
  match v_dict with
  | PyDict entries =>
      match assoc ROOT_KEY entries with
      | Some value => Returned value
      | None => Returned v_dict
      end
  | PyStr s =>
      if contains ROOT_KEY s
      then Raised (TypeError "string indices must be integers")
      else Returned v_dict
  | PyList items =>
      if existsb (fun x => match x with
                           | PyStr s => String.eqb s ROOT_KEY
                           | _ => false
                           end) items
      then Raised (TypeError "list indices must be integers or slices")
      else Returned v_dict
  | PyNone | PyInt _ => Raised (TypeError "argument is not iterable")
  end.

(** [dict()] of the model: each comment goes through its overriding
    [dict()] and through [get_value]. *)
Definition UserWithoutIDSerializer_dict (u : UserWithoutIDSerializer) : outcome pyval :=
  match validate_all (fun c => get_value (CommentToStringSerializer_dict c))
                     (uw_comments u) with
  | Returned comments =>
      Returned (PyDict [("name", PyStr (uw_name u)); ("comments", PyList comments)])
  | Raised e => Raised e
  end.

(** [Serializer.from_orm(obj).dict()] *)
Definition serialize {S} (from_orm : orm_user -> outcome S) (to_dict : S -> pyval)
           (u : orm_user) : outcome pyval :=
  match from_orm u with
  | Returned m => Returned (to_dict m)
  | Raised e => Raised e
  end.

Definition bare (u : orm_user) : outcome pyval :=
  serialize UserSerializer_from_orm UserSerializer_dict u.

Definition tweaked (u : orm_user) : outcome pyval :=
  match UserWithoutIDSerializer_from_orm u with
  | Returned m => UserWithoutIDSerializer_dict m
  | Raised e => Raised e
  end.

End Serializers.

Module OrmMain.
Import Orm Serializers.

(** What the script sends to the session, the user being object 0. *)
Definition demo_ops : list op :=
  [NewUser "Alice"; NewComment "First comment." 0; NewComment "Second comment." 0;
   SessionAdd 0; SessionCommit].

Definition lift {A} (r : outcome A) : M world A := fun w => (r, w).

(** The two values the script prints. *)
Definition bare_result : pyval :=
  PyDict [("id", PyInt 1); ("name", PyStr "Alice");
          ("comments",
           PyList [PyDict [("id", PyInt 1); ("comment", PyStr "First comment.");
                           ("user_id", PyInt 1)];
                   PyDict [("id", PyInt 2); ("comment", PyStr "Second comment.");
                           ("user_id", PyInt 1)]])].

Definition tweaked_result : pyval :=
  PyDict [("name", PyStr "Alice");
          ("comments", PyList [PyStr "First comment."; PyStr "Second comment."])].

Section Main.

(** [json.dumps(value, indent=indent)], the text it renders. *)
Variable json_dumps : pyval -> Z -> string.

(** The last four statements: both serializations, then both prints. *)
Definition report (user : orm_user) : script :=
  (let* bare_result := lift (bare user) in
   let* tweaked_result := lift (tweaked user) in
   let* printed := print [PyStr ("bare_result = " ++ json_dumps bare_result 2)] in
   print [PyStr ("tweaked_result = " ++ json_dumps tweaked_result 2)])%py.

Definition main : script :=
  let st := initial in
  let (user, st) := new_User "Alice" st in
  let (first_comment, st) := new_Comment "First comment." user st in
  let (second_comment, st) := new_Comment "Second comment." user st in
  let st := session_add user st in
  let st := session_commit st in
  match read_user st user with
  | Some obj => report obj
  | None => raise (OtherError "no such object")
  end.

End Main.

End OrmMain.

(** ** The scripts of the repository *)

Module Scripts.

Section All.

Variable json_dumps : pyval -> Z -> string.

Definition all : list (string * script) :=
  [ ("live_reload.py", LiveReloadMain.main);
    ("posts/kedro-index-partitioned-dataset.py", Kedro.main);
    ("posts/pydantic-and-nested-relationships.py", OrmMain.main json_dumps) ].

End All.

(** A script whose whole behaviour is to print and exit: it returns, it
    has written something, and it leaves nothing else behind. *)
Definition prints_and_exits (s : script) : Prop :=
  forall argv, exists out,
    out <> [] /\ behaviour (s (start argv)) = (Returned tt, out, None).

Definition every_script_prints_and_exits : Prop :=
  forall json_dumps name s, In (name, s) (all json_dumps) -> prints_and_exits s.

End Scripts.
(** ** What the session has stored *)

Module Stored.
Import Orm.

(** The keys of each table are pairwise different and start at 1. *)
Definition keys_unique (d : database) : Prop :=
  NoDup (map row_id (user_table d)) /\
  NoDup (map crow_id (comment_table d)) /\
  Forall (fun i => (1 <= i)%Z) (map row_id (user_table d)) /\
  Forall (fun i => (1 <= i)%Z) (map crow_id (comment_table d)).

(** An object which carries a key has a row with that key and with the
    values of its attributes. *)
Definition rows_match (st : state) : Prop :=
  (forall u obj i,
      user_objects st !! u = Some obj ->
      u_id obj = Some i ->
      In (mkUserRow i (u_name obj)) (user_table (db st))) /\
  (forall c obj j,
      comment_objects st !! c = Some obj ->
      c_id obj = Some j ->
      In (mkCommentRow j (c_comment obj) (c_user_id obj)) (comment_table (db st))).

(** A comment object, if there is one at [c], carries a key. *)
Definition comment_stored (st : state) (c : nat) : Prop :=
  forall obj, comment_objects st !! c = Some obj -> c_id obj <> None.

(** A user object, if there is one at [u], carries a key, and so does each
    comment of its collection. *)
Definition persistent (st : state) (u : nat) : Prop :=
  forall obj,
    user_objects st !! u = Some obj ->
    u_id obj <> None /\ Forall (comment_stored st) (u_comments obj).

(** A comment in the collection of a user was built with that user. *)
Definition collections_owned (st : state) : Prop :=
  forall u uobj c,
    user_objects st !! u = Some uobj ->
    In c (u_comments uobj) ->
    exists cobj, comment_objects st !! c = Some cobj /\ c_user cobj = Some u.

(** A stored comment was built with a user; that user is stored, and the
    comment's [user_id] is that user's key. *)
Definition keys_follow_users (st : state) : Prop :=
  forall c cobj,
    comment_objects st !! c = Some cobj ->
    c_id cobj <> None ->
    exists u uobj,
      c_user cobj = Some u /\
      user_objects st !! u = Some uobj /\
      u_id uobj <> None /\
      c_user_id cobj = u_id uobj.

(** The reading under which referential integrity is the sole invariant:
    whatever holds of the tables in every state the statements reach holds
    of every database which has referential integrity. *)
Definition sole_invariant : Prop :=
  forall P : database -> Prop,
    (forall ops, P (db (run ops initial))) ->
    forall d, referential_integrity d -> P d.

End Stored.

(** * Properties *)

Import LiveReload Kedro Orm Serializers.

(** ** Lookup by key *)

Section FilterDatasetsFacts.

Context {W : Type}.
Implicit Types (items : loaded_dataset W) (filter key : string) (f : load_func W).

Lemma filter_datasets_cons items key f filter :
  filter_datasets ((key, f) :: items) filter =
  if String.eqb key filter then f else filter_datasets items filter.
Proof. reflexivity. Qed.

(** No key equal to the filter: the loop runs to its end. *)
Lemma filter_datasets_miss items filter :
  Forall (fun kv => fst kv <> filter) items ->
  filter_datasets items filter = ret (PyDict []).
Proof.
  induction 1 as [|[key f] rest Hne _ IH]; [reflexivity|].
  rewrite filter_datasets_cons.
  destruct (String.eqb_spec key filter) as [Heq|_]; [|exact IH].
  now elim Hne.
Qed.

(** The first entry with the key decides, whatever comes after it. *)
Lemma filter_datasets_first before after key f :
  Forall (fun kv => fst kv <> key) before ->
  filter_datasets (before ++ (key, f) :: after) key = f.
Proof.
  induction 1 as [|[k g] rest Hne _ IH]; simpl.
  - now rewrite String.eqb_refl.
  - destruct (String.eqb_spec k key) as [Heq|_]; [now elim Hne | exact IH].
Qed.



(** With pairwise different keys, an entry is found by its key. *)
Lemma filter_datasets_unique items key f :
  NoDup (map fst items) ->
  In (key, f) items ->
  filter_datasets items key = f.
Proof.
  induction items as [|[k g] rest IH]; simpl; [tauto|].
  intros Hnd [Heq|Hin].
  - injection Heq as -> ->. now rewrite String.eqb_refl.
  - apply NoDup_cons in Hnd as [Hk Hnd].
    destruct (String.eqb_spec k key) as [->|_]; [|now apply IH].
    elim Hk. apply list_elem_of_In, in_map_iff. now exists (key, f).
Qed.

End FilterDatasetsFacts.

(** *** The three partitions of the script *)

(** The script queries the directory its three [save] calls leave. *)
Lemma main_queries_saved_directory :
  Kedro.main = main_loop (loaders saved_directory) first_names.
Proof. reflexivity. Qed.

Lemma loaders_keys (dir : directory) : map fst (loaders dir) = map fst dir.
Proof. unfold loaders. rewrite map_map. reflexivity. Qed.

Lemma loaders_entry (dir : directory) (key : string) (payload : pyval) :
  In (key, payload) dir -> In (key, ret (W:=world) payload) (loaders dir).
Proof.
  intros Hin. unfold loaders. apply in_map_iff. now exists (key, payload).
Qed.

(** C1: on a loaded dataset holding exactly the partitions [florian],
    [flavien] and [julien], in whatever order the library lists them,
    [filter_datasets] returns the stored payload for a filter equal to one
    of the three keys and the empty dict for any other filter. *)
Theorem filter_datasets_three_partitions
        (loaded : loaded_dataset world) (filter : string) (w : world) :
  Permutation loaded (loaders [florian; flavien; julien]) ->
  (forall payload,
      In (filter, payload) [florian; flavien; julien] ->
      filter_datasets loaded filter w = (Returned payload, w)) /\
  (~ In filter (map fst [florian; flavien; julien]) ->
   filter_datasets loaded filter w = (Returned (PyDict []), w)).
Proof.
  intros Hperm. split.
  - intros payload Hin.
    rewrite (filter_datasets_unique loaded filter (ret payload)); [reflexivity| |].
    + rewrite (Permutation_map fst Hperm), loaders_keys. simpl.
      repeat (apply NoDup_cons_2;
              [rewrite ?elem_of_cons, elem_of_nil; intuition discriminate|]).
      apply NoDup_nil_2.
    + apply (Permutation_in _ (Permutation_sym Hperm)). now apply loaders_entry.
  - intros Hout.
    rewrite filter_datasets_miss; [reflexivity|].
    apply List.Forall_forall. intros kv Hkv Heq. apply Hout.
    rewrite <- Heq, <- loaders_keys.
    apply in_map. apply (Permutation_in _ Hperm Hkv).
Qed.

Lemma filter_datasets_three_partitions_witness :
  Permutation (loaders saved_directory) (loaders [florian; flavien; julien]) /\
  filter_datasets (loaders saved_directory) "julien" (start []) =
  (Returned (snd julien), start []).
Proof.
  assert (Hperm : Permutation (loaders saved_directory) (loaders [florian; flavien; julien]))
    by apply perm_swap.
  split; [exact Hperm|].
  apply (proj1 (filter_datasets_three_partitions
                  (loaders saved_directory) "julien" (start []) Hperm)).
  simpl. auto.
Defined.

(** *** Which load functions are called *)

Section SpyFacts.

Context {W : Type}.
Implicit Types (items : loaded_dataset W) (filter : string).

Lemma spied_run items filter : forall pos log w,
  filter_datasets (spied_from pos items) filter (log, w) =
  match first_match_from pos items filter with
  | Some p => (fst (filter_datasets items filter w),
               (log ++ [p], snd (filter_datasets items filter w)))
  | None => (Returned (PyDict []), (log, w))
  end.
Proof.
  induction items as [|[key f] rest IH]; intros pos log w; simpl; [reflexivity|].
  destruct (String.eqb key filter).
  - unfold spy; simpl. now destruct (f w).
  - apply IH.
Qed.

(** Recording does not change what the call computes. *)
Lemma spied_transparent items filter w :
  fst (filter_datasets (spied items) filter ([], w)) =
    fst (filter_datasets items filter w) /\
  snd (snd (filter_datasets (spied items) filter ([], w))) =
    snd (filter_datasets items filter w).
Proof.
  unfold spied. rewrite spied_run.
  destruct (first_match_from 0 items filter) eqn:Hfm; simpl; [tauto|].
  revert Hfm. generalize 0.
  induction items as [|[key f] rest IH]; intros pos; simpl; [tauto|].
  destruct (String.eqb key filter); [discriminate|]. apply IH.
Qed.

Lemma first_match_from_some items filter : forall pos p,
  first_match_from pos items filter = Some p ->
  exists i, p = pos + i /\
            (exists f, items !! i = Some (filter, f)) /\
            forall j kv, j < i -> items !! j = Some kv -> fst kv <> filter.
Proof.
  induction items as [|[key f] rest IH]; intros pos p; simpl; [discriminate|].
  destruct (String.eqb_spec key filter) as [->|Hne].
  - intros [= <-]. exists 0. repeat split; [lia|now exists f|lia].
  - intros Hfm. destruct (IH _ _ Hfm) as (i & -> & Hat & Hbefore).
    exists (S i). repeat split; [lia|exact Hat|].
    intros [|j] kv Hj; simpl.
    + now intros [= <-].
    + apply Hbefore. lia.
Qed.

Lemma first_match_from_none items filter : forall pos,
  first_match_from pos items filter = None ->
  Forall (fun kv => fst kv <> filter) items.
Proof.
  induction items as [|[key f] rest IH]; intros pos; simpl; [constructor|].
  destruct (String.eqb_spec key filter) as [->|Hne]; [discriminate|].
  intros Hfm. constructor; [exact Hne | now apply (IH (S pos))].
Qed.

(** C8: a call of [filter_datasets] invokes at most one load function:
    the log of invoked positions is empty when no key equals the filter,
    and otherwise holds exactly the position of the first entry, in
    iteration order, whose key equals the filter.  No other entry is
    invoked, a later entry with an equal key included. *)
Theorem filter_datasets_invokes_first_match_only items filter (w : W) :
  invoked items filter w =
    match first_match items filter with
    | Some pos => [pos]
    | None => []
    end /\
  (forall pos,
      first_match items filter = Some pos ->
      (exists f, items !! pos = Some (filter, f)) /\
      forall j kv, j < pos -> items !! j = Some kv -> fst kv <> filter) /\
  (first_match items filter = None ->
   Forall (fun kv => fst kv <> filter) items).
Proof.
  split; [|split].
  - unfold invoked, spied, first_match. rewrite spied_run.
    now destruct (first_match_from 0 items filter).
  - intros pos Hfm. apply first_match_from_some in Hfm as (i & -> & Hat & Hbefore).
    now split.
  - apply first_match_from_none.
Qed.

End SpyFacts.

Example invoked_duplicate_key :
  invoked (W:=unit)
          [("a", ret PyNone); ("b", ret (PyInt 1)); ("b", raise (OtherError "late"))]
          "b" tt = [1].
Proof. reflexivity. Qed.

(** *** Case of the keys *)





(** *** Failures *)




Example who_is_aymeric :
  behaviour (main_loop (loaders saved_directory) ["Aymeric"; "Florian"] (start [])) =
  (Returned tt,
   [[PyStr "Who is Aymeric?"; PyNone]; [PyStr "Who is Florian?"; PyStr "He is the boss!"]],
   None).
Proof. reflexivity. Qed.



(** ** The live-reload launcher *)

(** C4: the launcher registers exactly the five patterns [*.md],
    [posts/*.md], [*.py], [_static/*] and [_templates/*], each with the
    shell command [ablog build] and delay 1, and then serves the directory
    [docs/]; it names neither host nor port, so the library serves on its
    default local port. *)
Theorem live_reload_configuration (argv : list string) :
  exists srv,
    web_server (snd (LiveReloadMain.main (start argv))) = Some srv /\
    map filepath (watches (served_by srv)) =
      ["*.md"; "posts/*.md"; "*.py"; "_static/*"; "_templates/*"] /\
    Forall (fun t => func t = shell "ablog build" /\ delay t = Some 1%Z)
           (watches (served_by srv)) /\
    root srv = Some "docs/" /\
    host srv = None /\
    port srv = None.
Proof.
  eexists. split; [reflexivity|].
  split; [reflexivity|].
  split; [|now repeat split].
  repeat constructor.
Qed.

(** ** The schema *)

(** C5: the declared schema has exactly two tables.  [User] has one data
    column, [name], which is not nullable.  [Comment] has a [Text] column
    [comment] which is not nullable, and a column [user_id] whose foreign
    key is the primary key [id] of [User].  Each class declares one
    relationship, and the two point at each other. *)
Theorem schema_two_tables :
  metadata = [User; Comment] /\
  map tablename metadata = ["user"; "comment"] /\
  (exists c, data_columns User = [c] /\ col_name c = "name" /\ nullable c = false) /\
  (exists c, find_column Comment "comment" = Some c /\
             col_type c = Text /\ nullable c = false) /\
  (exists c pk, find_column Comment "user_id" = Some c /\
                referenced c = Some (User, pk) /\
                col_name pk = "id" /\ primary_key pk = true) /\
  (exists r, relationships User = [r] /\ rel_target r = class_name Comment /\
             bidirectional User r = true) /\
  (exists r, relationships Comment = [r] /\ rel_target r = class_name User /\
             bidirectional Comment r = true).
Proof.
  repeat split.
  - eexists. repeat split.
  - eexists. repeat split.
  - do 2 eexists. repeat split.
  - eexists. repeat split.
  - eexists. repeat split.
Qed.

(** ** Referential integrity *)

Section ReferentialIntegrity.

Implicit Types (st : state) (uid : Z).

Lemma refers_to_user_grows users more c :
  refers_to_user users c -> refers_to_user (users ++ more) c.
Proof.
  intros (uid & Hc & Hin). exists uid. split; [exact Hc|].
  rewrite map_app. apply in_or_app. now left.
Qed.

Lemma initial_consistent : consistent initial.
Proof.
  split; [constructor|]. intros u obj i Hu. now destruct u.
Qed.

Lemma new_User_consistent name st :
  consistent st -> consistent (snd (new_User name st)).
Proof.
  intros [Hri Hst]. split; [exact Hri|].
  intros u obj i Hu Hid. simpl in *.
  apply lookup_app_Some in Hu as [Hu|[_ Hu]]; [now apply (Hst u obj)|].
  destruct (u - length (user_objects st)) as [|n]; [|now destruct n].
  injection Hu as <-. discriminate Hid.
Qed.

Lemma new_Comment_consistent comment user st :
  consistent st -> consistent (snd (new_Comment comment user st)).
Proof.
  intros [Hri Hst]. split; [exact Hri|].
  intros u obj i Hu Hid. simpl in *.
  rewrite list_lookup_alter in Hu.
  destruct (decide (user = u)) as [<-|_]; [|now apply (Hst u obj)].
  destruct (user_objects st !! user) as [old|] eqn:Hold; [|discriminate].
  injection Hu as <-. now apply (Hst user old).
Qed.

Lemma session_add_consistent user st :
  consistent st -> consistent (session_add user st).
Proof. intros [Hri Hst]. now split. Qed.

(** Flushing a comment under a stored key keeps the tables consistent and
    leaves the users alone. *)
Lemma flush_comment_consistent uid c st :
  consistent st ->
  In uid (map row_id (user_table (db st))) ->
  consistent (flush_comment uid c st) /\
  user_table (db (flush_comment uid c st)) = user_table (db st).
Proof.
  intros [Hri Hst] Hin. unfold flush_comment.
  destruct (comment_objects st !! c) as [obj|]; [|now repeat split].
  destruct (c_id obj); [now repeat split|].
  split; [|reflexivity]. split; [|exact Hst].
  unfold referential_integrity; simpl.
  apply Forall_app; split; [exact Hri|].
  constructor; [|constructor]. now exists uid.
Qed.

Lemma flush_comments_consistent uid cs : forall st,
  consistent st ->
  In uid (map row_id (user_table (db st))) ->
  consistent (fold_left (fun acc c => flush_comment uid c acc) cs st).
Proof.
  induction cs as [|c rest IH]; intros st Hc Hin; simpl; [exact Hc|].
  destruct (flush_comment_consistent uid c st Hc Hin) as [Hc' Hsame].
  apply IH; [exact Hc'|]. now rewrite Hsame.
Qed.

(** Storing a user yields a key which is in the table. *)
Lemma flush_insert_user_consistent u obj st :
  consistent st ->
  user_objects st !! u = Some obj ->
  consistent (snd (flush_insert_user u obj st)) /\
  In (fst (flush_insert_user u obj st))
     (map row_id (user_table (db (snd (flush_insert_user u obj st))))).
Proof.
  intros [Hri Hst] Hu. unfold flush_insert_user.
  destruct (u_id obj) as [i|] eqn:Hid; simpl.
  - split; [now split | now apply (Hst u obj)].
  - split; [split|].
    + unfold referential_integrity; simpl.
      apply (List.Forall_impl _ (P := refers_to_user (user_table (db st))));
        [|exact Hri].
      intros c. apply refers_to_user_grows.
    + intros v vobj j Hv Hj. simpl in *.
      rewrite map_app. apply in_or_app.
      apply list_lookup_insert_Some in Hv as [(_ & <- & _)|(_ & Hv)].
      * injection Hj as <-. right. now left.
      * left. now apply (Hst v vobj).
    + rewrite map_app. apply in_or_app. right. now left.
Qed.

Lemma flush_user_consistent st u :
  consistent st -> consistent (flush_user st u).
Proof.
  intros Hc. unfold flush_user.
  destruct (user_objects st !! u) as [obj|] eqn:Hu; [|exact Hc].
  destruct (flush_insert_user_consistent u obj st Hc Hu) as [Hc1 Hin].
  destruct (flush_insert_user u obj st) as [uid st1]; simpl in *.
  now apply flush_comments_consistent.
Qed.

Lemma session_commit_consistent st :
  consistent st -> consistent (session_commit st).
Proof.
  unfold session_commit. generalize (session st) as us.
  intros us. revert st.
  induction us as [|u rest IH]; intros st Hc; simpl; [exact Hc|].
  apply IH. now apply flush_user_consistent.
Qed.

Lemma step_consistent st o : consistent st -> consistent (step st o).
Proof.
  destruct o; simpl.
  - apply new_User_consistent.
  - apply new_Comment_consistent.
  - apply session_add_consistent.
  - apply session_commit_consistent.
Qed.

Lemma run_consistent ops : forall st, consistent st -> consistent (run ops st).
Proof.
  induction ops as [|o rest IH]; intros st Hc; simpl; [exact Hc|].
  apply IH. now apply step_consistent.
Qed.

End ReferentialIntegrity.

(** C6, as the code has it: referential integrity holds in every state the
    statements of the script can reach from the empty database, in any
    number and order: each [Comment] row's [user_id] is the [id] of a [User]
    row.  In the run of the script one user row is stored, with key 1, and
    both comment rows refer to it.  It is one invariant of the schema, not
    the only one. *)
Theorem referential_integrity_reachable :
  (forall ops, referential_integrity (db (run ops initial))) /\
  (forall n, referential_integrity (db (run (firstn n OrmMain.demo_ops) initial))) /\
  user_table (db (run OrmMain.demo_ops initial)) = [mkUserRow 1 "Alice"] /\
  comment_table (db (run OrmMain.demo_ops initial)) =
    [mkCommentRow 1 "First comment." (Some 1%Z);
     mkCommentRow 2 "Second comment." (Some 1%Z)].
Proof.
  split; [|split; [|split]]; try reflexivity.
  - intros ops. apply (run_consistent ops initial initial_consistent).
  - intros n. apply (run_consistent _ initial initial_consistent).
Qed.

(** ** Serialization without identifiers *)

Lemma validate_all_comment_texts (cs : list orm_comment) :
  validate_all CommentToStringSerializer_from_orm cs =
  Returned (map (fun c => mkCommentToStringSerializer (attr_comment c)) cs).
Proof.
  induction cs as [|c rest IH]; simpl; [reflexivity|]. now rewrite IH.
Qed.

Lemma validate_all_map {A B C} (g : A -> B) (f : B -> outcome C) (xs : list A) :
  validate_all f (map g xs) = validate_all (fun x => f (g x)) xs.
Proof.
  induction xs as [|x rest IH]; simpl; [reflexivity|]. now rewrite IH.
Qed.

(** The result is a function of the name and of the comment texts. *)
Lemma tweaked_texts (u : orm_user) :
  tweaked u =
  match validate_all (fun text => get_value (PyStr text))
                     (map attr_comment (attr_comments u)) with
  | Returned comments =>
      Returned (PyDict [("name", PyStr (attr_name u)); ("comments", PyList comments)])
  | Raised e => Raised e
  end.
Proof.
  unfold tweaked, UserWithoutIDSerializer_from_orm.
  rewrite validate_all_comment_texts.
  unfold UserWithoutIDSerializer_dict; simpl.
  now rewrite !validate_all_map.
Qed.

Lemma get_value_texts (texts : list string) :
  Forall (fun text => contains ROOT_KEY text = false) texts ->
  validate_all (fun text => get_value (PyStr text)) texts = Returned (map PyStr texts).
Proof.
  induction 1 as [|text rest Hfree _ IH]; [reflexivity|].
  cbn [validate_all map]. rewrite IH. unfold get_value. now rewrite Hfree.
Qed.

Lemma get_value_texts_returned (texts : list string) (comments : list pyval) :
  validate_all (fun text => get_value (PyStr text)) texts = Returned comments ->
  comments = map PyStr texts.
Proof.
  revert comments. induction texts as [|text rest IH]; intros comments.
  - simpl. now intros [= <-].
  - cbn [validate_all map]. unfold get_value at 1.
    destruct (contains ROOT_KEY text); [discriminate|].
    destruct (validate_all (fun t => get_value (PyStr t)) rest) as [cs|e];
      [|discriminate].
    intros [= <-]. now rewrite (IH cs eq_refl).
Qed.

(** C10: the serializer without identifiers fails on a comment whose text
    holds [__root__].  The overriding [dict] returns the text where the
    library expects a dict, the library finds [__root__] in it and indexes
    it: the call raises [TypeError] where the dict of the name and of the
    list of the bare comment texts is due. *)
Theorem tweaked_root_key_raises :
  tweaked (mkOrmUser (Some 1%Z) "Alice"
             [mkOrmComment (Some 1%Z) "see __root__ here" (Some 1%Z)]) =
  Raised (TypeError "string indices must be integers").
Proof. reflexivity. Qed.

(** The serializer which keeps the identifiers tells such users apart. *)
Example bare_depends_on_ids :
  bare (mkOrmUser (Some 1%Z) "Alice" []) <> bare (mkOrmUser (Some 2%Z) "Alice" []) /\
  bare (mkOrmUser None "Alice" []) = Raised (ValidationError "id").
Proof. split; [discriminate | reflexivity]. Qed.

(** ** The scripts as processes *)

(** The session part of the ORM script is the run of [demo_ops]. *)
Lemma main_reads_demo_run :
  read_user (run OrmMain.demo_ops initial) 0 =
  Some (mkOrmUser (Some 1%Z) "Alice"
          [mkOrmComment (Some 1%Z) "First comment." (Some 1%Z);
           mkOrmComment (Some 2%Z) "Second comment." (Some 1%Z)]).
Proof. reflexivity. Qed.

(** The launcher prints nothing and leaves a server behind: it is not one of
    the scripts which print a result and exit. *)
Lemma live_reload_prints_nothing : ~ Scripts.every_script_prints_and_exits.
Proof.
  intros Hall.
  destruct (Hall (fun _ _ => "") "live_reload.py" LiveReloadMain.main) with (argv := @nil string)
    as (out & Hout & Hrun); [now left|].
  apply (f_equal (fun b => snd (fst b))) in Hrun. simpl in Hrun.
  now elim Hout.
Qed.

(** C3, as the code has it: the two post scripts run from start to finish
    and exit after printing.  The partition script prints its three answers,
    the ORM script the two rendered results.  The launcher prints nothing:
    it ends in the call which starts the web server. *)
Theorem post_scripts_print_and_exit (json_dumps : pyval -> Z -> string) :
  (forall argv,
      behaviour (Kedro.main (start argv)) =
      (Returned tt,
       [[PyStr "Who is Florian?"; PyStr "He is the boss!"];
        [PyStr "Who is Julien?"; PyStr "He is my boss...Oh, wait, no it's Aymeric now!"];
        [PyStr "Who is Flavien?"; PyStr "I am the boss...of JIRA!"]],
       None)) /\
  (forall argv,
      behaviour (OrmMain.main json_dumps (start argv)) =
      (Returned tt,
       [[PyStr ("bare_result = " ++ json_dumps OrmMain.bare_result 2%Z)];
        [PyStr ("tweaked_result = " ++ json_dumps OrmMain.tweaked_result 2%Z)]],
       None)) /\
  Scripts.prints_and_exits Kedro.main /\
  Scripts.prints_and_exits (OrmMain.main json_dumps) /\
  (forall argv,
      stdout (snd (LiveReloadMain.main (start argv))) = [] /\
      exists srv, web_server (snd (LiveReloadMain.main (start argv))) = Some srv).
Proof.
  split; [reflexivity|]. split; [reflexivity|].
  split; [|split].
  - intros argv. eexists. split; [|reflexivity]. discriminate.
  - intros argv. eexists. split; [|reflexivity]. discriminate.
  - intros argv. split; [reflexivity|]. eexists. reflexivity.
Qed.

(** C7: no script reads its arguments.  Started with any two argument
    lists, a script of the repository shows the same behaviour: the same
    result, the same output and the same server.  A run ends by returning
    or by an exception nothing caught. *)
Theorem scripts_ignore_arguments
        (json_dumps : pyval -> Z -> string) (name : string) (s : script)
        (argv1 argv2 : list string) :
  In (name, s) (Scripts.all json_dumps) ->
  behaviour (s (start argv1)) = behaviour (s (start argv2)) /\
  (fst (s (start argv1)) = Returned tt \/ exists e, fst (s (start argv1)) = Raised e).
Proof.
  intros [Hs|[Hs|[Hs|[]]]]; injection Hs as _ <-; (split; [reflexivity | now left]).
Qed.

Lemma scripts_ignore_arguments_witness :
  In ("posts/kedro-index-partitioned-dataset.py", Kedro.main)
     (Scripts.all (fun _ _ => "")) /\
  behaviour (Kedro.main (start [])) =
  behaviour (Kedro.main (start ["--partition"; "julien"])).
Proof.
  assert (Hin : In ("posts/kedro-index-partitioned-dataset.py", Kedro.main)
                   (Scripts.all (fun _ _ => ""))) by (right; now left).
  split; [exact Hin|].
  apply (proj1 (scripts_ignore_arguments (fun _ _ => "")
                  "posts/kedro-index-partitioned-dataset.py" Kedro.main
                  [] ["--partition"; "julien"] Hin)).
Defined.

(** * Further properties *)

(** ** The lookup as a function of the dataset *)

Section LookupFacts.

Context {W : Type}.
Implicit Types (items : loaded_dataset W) (filter : string).

(** X1: the loop of [filter_datasets] is a lookup with a default: it behaves
    as the load function stored under the first entry with the key, and as
    a function returning the empty dict when there is none. *)
Theorem filter_datasets_is_lookup items filter :
  filter_datasets items filter =
  match assoc filter items with
  | Some partition_load_func => partition_load_func
  | None => ret (PyDict [])
  end.
Proof.
  induction items as [|[key f] rest IH]; simpl; [reflexivity|].
  now destruct (String.eqb key filter).
Qed.

(** X2: on two datasets put one after the other, the lookup is decided by
    the first one whenever it has the key, and only otherwise by the
    second. *)
Theorem filter_datasets_app (first second : loaded_dataset W) filter :
  filter_datasets (first ++ second) filter =
  match assoc filter first with
  | Some partition_load_func => partition_load_func
  | None => filter_datasets second filter
  end.
Proof.
  induction first as [|[key f] rest IH]; simpl; [reflexivity|].
  now destruct (String.eqb key filter).
Qed.

End LookupFacts.

(** ** One query of the loop *)

Lemma filter_datasets_hit (loaded : loaded_dataset world) (key : string)
      (f : load_func world) :
  assoc key loaded = Some f -> filter_datasets loaded key = f.
Proof.
  induction loaded as [|[k g] rest IH]; simpl; [discriminate|].
  destruct (String.eqb k key); [now intros [= ->] | exact IH].
Qed.

(** X3: a query for an ASCII name whose lowercase form is a key, and whose
    partition loads as a dict, prints the question and the entry ["is"] of
    the dict, after whatever the load function did to the state; when the
    dict has no entry ["is"] the answer printed is [None]. *)
Theorem who_is_hit (loaded : loaded_dataset world) (name : string)
        (f : load_func world) (d : list (string * pyval)) (w w1 : world) :
  ascii_only name = true ->
  assoc (lower name) loaded = Some f ->
  f w = (Returned (PyDict d), w1) ->
  who_is loaded name w =
    (Returned tt,
     mkWorld (sys_argv w1)
             (stdout w1 ++ [[PyStr ("Who is " ++ name ++ "?"); dict_get d "is" PyNone]])
             (web_server w1)) /\
  (assoc "is" d = None ->
   who_is loaded name w =
     (Returned tt,
      mkWorld (sys_argv w1)
              (stdout w1 ++ [[PyStr ("Who is " ++ name ++ "?"); PyNone]])
              (web_server w1))).
Proof.
  intros _ Hkey Hload.
  assert (Hrun : who_is loaded name w =
                 (Returned tt,
                  mkWorld (sys_argv w1)
                          (stdout w1 ++
                           [[PyStr ("Who is " ++ name ++ "?"); dict_get d "is" PyNone]])
                          (web_server w1))).
  { unfold who_is, bind. rewrite (filter_datasets_hit _ _ _ Hkey), Hload.
    reflexivity. }
  split; [exact Hrun|].
  intros Hmiss. rewrite Hrun. unfold dict_get. now rewrite Hmiss.
Qed.

Lemma who_is_hit_witness :
  who_is [("julien", ret (PyDict [("was", PyStr "the boss")]))] "JuLiEn" (start []) =
  (Returned tt, mkWorld [] [[PyStr "Who is JuLiEn?"; PyNone]] None).
Proof.
  apply (proj2 (who_is_hit [("julien", ret (PyDict [("was", PyStr "the boss")]))]
                  "JuLiEn" (ret (PyDict [("was", PyStr "the boss")]))
                  [("was", PyStr "the boss")] (start []) (start [])
                  eq_refl eq_refl eq_refl)).
  reflexivity.
Defined.

(** X4: a partition which loads as a value other than a dict has no [get]:
    the query for an ASCII name whose lowercase form is its key raises
    [AttributeError] and prints nothing. *)
Theorem who_is_payload_not_a_dict (loaded : loaded_dataset world) (name : string)
        (f : load_func world) (v : pyval) (w w1 : world) :
  ascii_only name = true ->
  assoc (lower name) loaded = Some f ->
  f w = (Returned v, w1) ->
  (forall d, v <> PyDict d) ->
  who_is loaded name w = (Raised (AttributeError "get"), w1).
Proof.
  intros _ Hkey Hload Hnot.
  unfold who_is, bind. rewrite (filter_datasets_hit _ _ _ Hkey), Hload.
  destruct v; try reflexivity. now elim (Hnot entries).
Qed.

Lemma who_is_payload_not_a_dict_witness :
  who_is [("florian", ret (PyList [PyStr "He is the boss!"]))] "Florian" (start []) =
  (Raised (AttributeError "get"), start []).
Proof.
  apply (who_is_payload_not_a_dict
           [("florian", ret (PyList [PyStr "He is the boss!"]))] "Florian"
           (ret (PyList [PyStr "He is the boss!"])) (PyList [PyStr "He is the boss!"])
           (start []) (start []) eq_refl eq_refl eq_refl).
  intros d. discriminate.
Defined.

(** ** The loop over any directory *)

Lemma assoc_load (dir : directory) (key : string) :
  assoc key (loaders dir) = option_map (fun payload => ret payload) (assoc key dir).
Proof.
  induction dir as [|[k v] rest IH]; simpl; [reflexivity|].
  now destruct (String.eqb k key).
Qed.

Lemma filter_datasets_load (dir : directory) (key : string) (w : world) :
  filter_datasets (loaders dir) key w =
  (Returned (match assoc key dir with Some payload => payload | None => PyDict [] end), w).
Proof.
  induction dir as [|[k v] rest IH]; simpl; [reflexivity|].
  now destruct (String.eqb k key).
Qed.

(** X5: the script from [load] on, over any directory and any names.  On a
    directory without partitions [load] raises and nothing is printed.  On a
    directory with partitions, all of them JSON objects, and for ASCII
    names, nothing fails: one line is printed per name, in order, holding
    the question and the entry ["is"] of the partition saved under the
    lowercase form of the name, or [None] when there is no such partition or
    no such entry.  The argument list and the server are left alone. *)
Theorem queries_answer_every_name (dir : directory) (names : list string)
        (w : world) :
  (dir <> [] ->
   Forall (fun kv => exists d, snd kv = PyDict d) dir ->
   Forall (fun name => ascii_only name = true) names ->
   queries dir names w =
   (Returned tt,
    mkWorld (sys_argv w)
            (stdout w ++
             map (fun name =>
                    [PyStr ("Who is " ++ name ++ "?");
                     match assoc (lower name) dir with
                     | Some (PyDict d) => dict_get d "is" PyNone
                     | _ => PyNone
                     end])
                 names)
            (web_server w))) /\
  queries [] names w = (Raised (DataSetError "No partitions found"), w).
Proof.
  split; [|reflexivity].
  intros Hsome Hdicts _. unfold queries, load.
  destruct dir as [|entry rest]; [now elim Hsome|].
  generalize dependent (entry :: rest). clear entry rest. intros dir _ Hdicts.
  revert w.
  induction names as [|name rest IH]; intros w.
  - simpl. rewrite app_nil_r. now destruct w.
  - unfold main_loop in *. simpl for_each. unfold bind at 1.
    unfold who_is, bind. rewrite filter_datasets_load.
    destruct (assoc (lower name) dir) as [payload|] eqn:Hkey.
    + assert (Hd : exists d, payload = PyDict d).
      { clear IH. induction Hdicts as [|[k v] tl Hv _ IHd]; [discriminate|].
        simpl in Hkey. destruct (String.eqb k (lower name)); [|now apply IHd].
        injection Hkey as <-. exact Hv. }
      destruct Hd as [d ->]. simpl. rewrite IH. simpl.
      now rewrite Hkey, <- app_assoc.
    + simpl. rewrite IH. simpl. now rewrite Hkey, <- app_assoc.
Qed.

Lemma queries_answer_every_name_witness :
  queries [("florian", PyDict [("is", PyStr "He is the boss!")]);
           ("julien", PyDict [])]
          ["Julien"; "Aymeric"; "FLORIAN"] (start ["-v"]) =
  (Returned tt,
   mkWorld ["-v"]
           [[PyStr "Who is Julien?"; PyNone];
            [PyStr "Who is Aymeric?"; PyNone];
            [PyStr "Who is FLORIAN?"; PyStr "He is the boss!"]]
           None).
Proof.
  apply (proj1 (queries_answer_every_name
                  [("florian", PyDict [("is", PyStr "He is the boss!")]);
                   ("julien", PyDict [])]
                  ["Julien"; "Aymeric"; "FLORIAN"] (start ["-v"]))).
  - discriminate.
  - repeat constructor; eexists; reflexivity.
  - repeat constructor.
Defined.

(** ** Saving, loading and looking up *)




















(** ** The serializers which keep the identifiers *)

Section ValidateAll.

Context {A B : Type} (f : A -> outcome B).

Lemma validate_all_returned (xs : list A) : forall ys,
  validate_all f xs = Returned ys -> Forall2 (fun x y => f x = Returned y) xs ys.
Proof.
  induction xs as [|x rest IH]; simpl; intros ys.
  - intros [= <-]. constructor.
  - destruct (f x) as [y|e] eqn:Hx; [|discriminate].
    destruct (validate_all f rest) as [ys'|e]; [|discriminate].
    intros [= <-]. constructor; [exact Hx | now apply IH].
Qed.

Lemma validate_all_raised (xs : list A) (e : exn) :
  validate_all f xs = Raised e -> exists x, In x xs /\ f x = Raised e.
Proof.
  induction xs as [|x rest IH]; simpl; [discriminate|].
  destruct (f x) as [y|e'] eqn:Hx.
  - destruct (validate_all f rest) as [ys'|e'']; [discriminate|].
    intros [= <-]. destruct IH as (x' & Hin & Hx'); [reflexivity|].
    exists x'. split; [now right | exact Hx'].
  - intros [= <-]. exists x. split; [now left | exact Hx].
Qed.

Lemma validate_all_all (xs : list A) :
  Forall (fun x => exists y, f x = Returned y) xs ->
  exists ys, validate_all f xs = Returned ys.
Proof.
  induction 1 as [|x rest [y Hx] _ [ys IH]]; simpl.
  - now exists [].
  - rewrite Hx, IH. now exists (y :: ys).
Qed.

End ValidateAll.

Lemma CommentSerializer_from_orm_returned (c : orm_comment) (s : CommentSerializer) :
  CommentSerializer_from_orm c = Returned s ->
  c = mkOrmComment (Some (cs_id s)) (cs_comment s) (Some (cs_user_id s)).
Proof.
  destruct c as [[i|] text [u|]]; unfold CommentSerializer_from_orm; simpl;
    try discriminate.
  now intros [= <-].
Qed.

Lemma CommentSerializer_from_orm_raised (c : orm_comment) (e : exn) :
  CommentSerializer_from_orm c = Raised e -> exists field, e = ValidationError field.
Proof.
  destruct c as [[i|] text [u|]]; unfold CommentSerializer_from_orm; simpl;
    try discriminate; intros [= <-]; eauto.
Qed.

(** X7: [UserSerializer.from_orm(user).dict()] returns exactly when every
    identifier it has to read is there: the [id] of the user and the [id]
    and [user_id] of each comment, as after a commit.  On any other object
    it raises, and what it raises is a validation error. *)
Theorem bare_returns_iff_identified (u : orm_user) :
  ((exists v, bare u = Returned v) <->
   attr_uid u <> None /\
   Forall (fun c => attr_id c <> None /\ attr_user_id c <> None) (attr_comments u)) /\
  (forall e, bare u = Raised e -> exists field, e = ValidationError field).
Proof.
  unfold bare, serialize, UserSerializer_from_orm. split; [split|].
  - intros [v Hv]. destruct (attr_uid u) as [i|]; [|discriminate Hv].
    split; [discriminate|]. simpl in Hv.
    destruct (validate_all CommentSerializer_from_orm (attr_comments u))
      as [cs|e] eqn:Hall; [|discriminate Hv].
    apply validate_all_returned in Hall. clear Hv.
    induction Hall as [|c s cs' ss Hc _ IH]; [constructor|].
    constructor; [|exact IH].
    apply CommentSerializer_from_orm_returned in Hc. rewrite Hc. simpl.
    split; discriminate.
  - intros [Hid Hcs]. destruct (attr_uid u) as [i|]; [|now elim Hid]. simpl.
    destruct (validate_all_all CommentSerializer_from_orm (attr_comments u))
      as [cs ->]; [|eauto].
    apply (List.Forall_impl _ (P := fun c => attr_id c <> None /\ attr_user_id c <> None));
      [|exact Hcs].
    intros [[ci|] text [cu|]] [H1 H2]; try (now elim H1); try (now elim H2).
    eexists. reflexivity.
  - intros e. destruct (attr_uid u) as [i|]; simpl; [|intros [= <-]; eauto].
    destruct (validate_all CommentSerializer_from_orm (attr_comments u))
      as [cs|e'] eqn:Hall; [discriminate|].
    intros [= <-]. apply validate_all_raised in Hall as (c & _ & Hc).
    now apply CommentSerializer_from_orm_raised in Hc.
Qed.

Lemma CommentSerializer_dict_inj (s1 s2 : CommentSerializer) :
  CommentSerializer_dict s1 = CommentSerializer_dict s2 -> s1 = s2.
Proof.
  destruct s1, s2. unfold CommentSerializer_dict; simpl. now intros [= -> -> ->].
Qed.

Lemma map_inj {A B} (f : A -> B) :
  (forall x y, f x = f y -> x = y) ->
  forall l1 l2, map f l1 = map f l2 -> l1 = l2.
Proof.
  intros Hinj. induction l1 as [|x l1 IH]; intros [|y l2]; simpl; try discriminate.
  - reflexivity.
  - intros [= Hxy Hl]. f_equal; [now apply Hinj | now apply IH].
Qed.

Lemma validate_all_comments_inv (cs : list orm_comment) (ss : list CommentSerializer) :
  validate_all CommentSerializer_from_orm cs = Returned ss ->
  cs = map (fun s => mkOrmComment (Some (cs_id s)) (cs_comment s) (Some (cs_user_id s))) ss.
Proof.
  intros Hall. apply validate_all_returned in Hall.
  induction Hall as [|c s cs' ss' Hc _ IH]; simpl; [reflexivity|].
  f_equal; [now apply CommentSerializer_from_orm_returned | exact IH].
Qed.

(** X8: the serialization which keeps the identifiers loses nothing: two
    users for which [UserSerializer.from_orm(user).dict()] returns the same
    value have the same identifiers, names and comments. *)
Theorem bare_injective (u1 u2 : orm_user) (v : pyval) :
  bare u1 = Returned v ->
  bare u2 = Returned v ->
  u1 = u2.
Proof.
  unfold bare, serialize, UserSerializer_from_orm.
  destruct u1 as [[i1|] n1 cs1], u2 as [[i2|] n2 cs2]; simpl; try discriminate.
  destruct (validate_all CommentSerializer_from_orm cs1) as [ss1|] eqn:H1;
    [|discriminate].
  destruct (validate_all CommentSerializer_from_orm cs2) as [ss2|] eqn:H2;
    [|discriminate].
  unfold UserSerializer_dict; simpl.
  intros [= <-] [= -> -> Hss].
  apply (map_inj _ CommentSerializer_dict_inj) in Hss as ->.
  apply validate_all_comments_inv in H1, H2. now rewrite H1, H2.
Qed.

Lemma bare_injective_witness :
  mkOrmUser (Some 1%Z) "Alice" [mkOrmComment (Some 1%Z) "First comment." (Some 1%Z)] =
  mkOrmUser (Some 1%Z) "Alice" [mkOrmComment (Some 1%Z) "First comment." (Some 1%Z)].
Proof.
  apply (bare_injective _ _
           (PyDict [("id", PyInt 1); ("name", PyStr "Alice");
                    ("comments",
                     PyList [PyDict [("id", PyInt 1); ("comment", PyStr "First comment.");
                                     ("user_id", PyInt 1)]])]));
    reflexivity.
Defined.

(** X9: the serialization without identifiers loses nothing else: two users
    for which [UserWithoutIDSerializer.from_orm(user).dict()] returns the
    same value have the same name and the same comment texts in the same
    order. *)
Theorem tweaked_keeps_name_and_texts (u1 u2 : orm_user) (v : pyval) :
  tweaked u1 = Returned v ->
  tweaked u2 = Returned v ->
  attr_name u1 = attr_name u2 /\
  map attr_comment (attr_comments u1) = map attr_comment (attr_comments u2).
Proof.
  rewrite !tweaked_texts.
  destruct (validate_all (fun text => get_value (PyStr text))
                         (map attr_comment (attr_comments u1))) as [cs1|] eqn:H1;
    [|discriminate].
  destruct (validate_all (fun text => get_value (PyStr text))
                         (map attr_comment (attr_comments u2))) as [cs2|] eqn:H2;
    [|discriminate].
  intros [= <-] [= Hname Hcs]. split; [now symmetry|].
  apply get_value_texts_returned in H1, H2. subst cs1 cs2.
  symmetry. apply (map_inj PyStr); [|exact Hcs].
  now intros x y [= ->].
Qed.

Lemma tweaked_keeps_name_and_texts_witness :
  attr_name (mkOrmUser (Some 1%Z) "Alice" [mkOrmComment None "Hi" None]) =
  attr_name (mkOrmUser None "Alice" [mkOrmComment (Some 3%Z) "Hi" (Some 1%Z)]) /\
  map attr_comment [mkOrmComment None "Hi" None] =
  map attr_comment [mkOrmComment (Some 3%Z) "Hi" (Some 1%Z)].
Proof.
  apply (tweaked_keeps_name_and_texts
           (mkOrmUser (Some 1%Z) "Alice" [mkOrmComment None "Hi" None])
           (mkOrmUser None "Alice" [mkOrmComment (Some 3%Z) "Hi" (Some 1%Z)])
           (PyDict [("name", PyStr "Alice"); ("comments", PyList [PyStr "Hi"])]));
    reflexivity.
Defined.

(** X17: what [UserWithoutIDSerializer.from_orm(user).dict()] does is
    decided by the name and the comment texts alone.  Two users with equal
    names and the same comment texts in the same order get the same
    outcome, the same value or the same error, whatever their [id]s and
    the [id]s and [user_id]s of their comments; when no text holds
    [__root__] that outcome is the dict of the name and of the list of the
    bare texts. *)
Theorem tweaked_decided_by_name_and_texts (u1 u2 : orm_user) :
  attr_name u1 = attr_name u2 ->
  map attr_comment (attr_comments u1) = map attr_comment (attr_comments u2) ->
  tweaked u1 = tweaked u2 /\
  (Forall (fun c => contains ROOT_KEY (attr_comment c) = false) (attr_comments u1) ->
   tweaked u1 =
   Returned (PyDict [("name", PyStr (attr_name u1));
                     ("comments",
                      PyList (map PyStr (map attr_comment (attr_comments u1))))])).
Proof.
  intros Hname Htexts. split.
  - rewrite !tweaked_texts. now rewrite Hname, Htexts.
  - intros Hfree. rewrite tweaked_texts, get_value_texts; [reflexivity|].
    clear Htexts. induction Hfree as [|c rest Hc _ IH]; simpl; [constructor|].
    constructor; [exact Hc | exact IH].
Qed.

Lemma tweaked_decided_by_name_and_texts_witness :
  tweaked (mkOrmUser (Some 1%Z) "Alice"
             [mkOrmComment (Some 1%Z) "First comment." (Some 1%Z)]) =
  tweaked (mkOrmUser None "Alice" [mkOrmComment (Some 7%Z) "First comment." None]) /\
  tweaked (mkOrmUser (Some 1%Z) "Alice"
             [mkOrmComment (Some 1%Z) "First comment." (Some 1%Z)]) =
  Returned (PyDict [("name", PyStr "Alice");
                    ("comments", PyList [PyStr "First comment."])]).
Proof.
  destruct (tweaked_decided_by_name_and_texts
              (mkOrmUser (Some 1%Z) "Alice"
                 [mkOrmComment (Some 1%Z) "First comment." (Some 1%Z)])
              (mkOrmUser None "Alice" [mkOrmComment (Some 7%Z) "First comment." None])
              eq_refl eq_refl) as [Hsame Hvalue].
  split; [exact Hsame|]. apply Hvalue. repeat constructor.
Defined.

(** ** Keys and rows of the session *)

Import Stored.

Lemma next_id_above (ids : list Z) (i : Z) : In i ids -> (i < next_id ids)%Z.
Proof.
  unfold next_id. induction ids as [|j rest IH]; simpl; [tauto|].
  intros [->|Hin]; [lia|]. specialize (IH Hin). lia.
Qed.

Lemma next_id_positive (ids : list Z) : (1 <= next_id ids)%Z.
Proof.
  unfold next_id. induction ids as [|j rest IH]; simpl; lia.
Qed.

Lemma NoDup_next_id (ids : list Z) : NoDup ids -> NoDup (ids ++ [next_id ids]).
Proof.
  intros Hnd. apply NoDup_app. split; [exact Hnd|]. split; [|apply NoDup_singleton].
  intros i Hi Hnew. apply list_elem_of_singleton in Hnew.
  apply list_elem_of_In, next_id_above in Hi. lia.
Qed.

Section KeysUnique.

Implicit Types (st : state).

Lemma flush_comment_keys uid c st :
  keys_unique (db st) -> keys_unique (db (flush_comment uid c st)).
Proof.
  intros (Hu & Hc & Hup & Hcp). unfold flush_comment.
  destruct (comment_objects st !! c) as [obj|]; [|now repeat split].
  destruct (c_id obj); [now repeat split|].
  unfold keys_unique; simpl. rewrite map_app; simpl.
  repeat split; [exact Hu | now apply NoDup_next_id | exact Hup |].
  apply Forall_app. split; [exact Hcp|].
  constructor; [apply next_id_positive | constructor].
Qed.

Lemma flush_comments_keys uid cs : forall st,
  keys_unique (db st) ->
  keys_unique (db (fold_left (fun acc c => flush_comment uid c acc) cs st)).
Proof.
  induction cs as [|c rest IH]; intros st Hk; simpl; [exact Hk|].
  apply IH. now apply flush_comment_keys.
Qed.

Lemma flush_insert_user_keys u obj st :
  keys_unique (db st) -> keys_unique (db (snd (flush_insert_user u obj st))).
Proof.
  intros (Hu & Hc & Hup & Hcp). unfold flush_insert_user.
  destruct (u_id obj); [now repeat split|].
  unfold keys_unique; simpl. rewrite map_app; simpl.
  repeat split; [now apply NoDup_next_id | exact Hc | | exact Hcp].
  apply Forall_app. split; [exact Hup|].
  constructor; [apply next_id_positive | constructor].
Qed.

Lemma flush_user_keys st u :
  keys_unique (db st) -> keys_unique (db (flush_user st u)).
Proof.
  intros Hk. unfold flush_user.
  destruct (user_objects st !! u) as [obj|]; [|exact Hk].
  pose proof (flush_insert_user_keys u obj st Hk) as Hk1.
  destruct (flush_insert_user u obj st) as [uid st1]; simpl in *.
  now apply flush_comments_keys.
Qed.

Lemma session_commit_keys st :
  keys_unique (db st) -> keys_unique (db (session_commit st)).
Proof.
  unfold session_commit. generalize (session st) as us. intros us. revert st.
  induction us as [|u rest IH]; intros st Hk; simpl; [exact Hk|].
  apply IH. now apply flush_user_keys.
Qed.

Lemma step_keys st o : keys_unique (db st) -> keys_unique (db (step st o)).
Proof.
  destruct o; simpl; try (intros H; exact H). apply session_commit_keys.
Qed.

End KeysUnique.

(** Referential integrity is not the sole invariant of the schema: the keys
    of a table are pairwise different in every state the statements reach,
    and a database with two users under one key has referential integrity
    all the same. *)
Lemma referential_integrity_not_sole : ~ sole_invariant.
Proof.
  intros Hsole.
  assert (Hkeys : forall ops, keys_unique (db (run ops initial))).
  { intros ops.
    assert (Hgen : forall st, keys_unique (db st) -> keys_unique (db (run ops st))).
    { induction ops as [|o rest IH]; intros st Hk; simpl; [exact Hk|].
      apply IH. now apply step_keys. }
    apply Hgen. repeat split; constructor. }
  destruct (Hsole keys_unique Hkeys
                  (mkDatabase [mkUserRow 1 "Alice"; mkUserRow 1 "Bob"] []))
    as [Hnd _]; [constructor|].
  simpl in Hnd. apply NoDup_cons in Hnd as [Hin _].
  apply Hin, list_elem_of_In. now left.
Qed.

(** X10: the primary keys stay keys.  From any state whose tables have
    pairwise different keys, starting at 1, every sequence of the script's
    statements leads to a state whose tables have them too: no commit gives
    a key twice. *)
Theorem primary_keys_unique (ops : list op) (st : state) :
  keys_unique (db st) -> keys_unique (db (run ops st)).
Proof.
  revert st. induction ops as [|o rest IH]; intros st Hk; simpl; [exact Hk|].
  apply IH. now apply step_keys.
Qed.

Lemma primary_keys_unique_witness :
  keys_unique (db (run (OrmMain.demo_ops ++ [NewUser "Bob"; SessionAdd 1; SessionCommit])
                       initial)).
Proof.
  apply (primary_keys_unique _ initial).
  repeat split; constructor.
Defined.

Section RowsMatch.

Implicit Types (st : state).

Lemma flush_comment_rows uid c st :
  rows_match st -> rows_match (flush_comment uid c st).
Proof.
  intros [Hu Hc]. unfold flush_comment.
  destruct (comment_objects st !! c) as [obj|] eqn:Hobj; [|now split].
  destruct (c_id obj) eqn:Hid; [now split|].
  split; simpl; [exact Hu|].
  intros c' obj' j Hc' Hj. apply in_or_app.
  apply list_lookup_insert_Some in Hc' as [(_ & <- & _)|(_ & Hc')].
  - simpl in *. injection Hj as <-. right. now left.
  - left. now apply (Hc c').
Qed.

Lemma flush_comments_rows uid cs : forall st,
  rows_match st -> rows_match (fold_left (fun acc c => flush_comment uid c acc) cs st).
Proof.
  induction cs as [|c rest IH]; intros st Hr; simpl; [exact Hr|].
  apply IH. now apply flush_comment_rows.
Qed.

Lemma flush_insert_user_rows u obj st :
  rows_match st -> rows_match (snd (flush_insert_user u obj st)).
Proof.
  intros [Hu Hc]. unfold flush_insert_user.
  destruct (u_id obj) eqn:Hid; [now split|].
  split; simpl; [|exact Hc].
  intros u' obj' i Hu' Hi. apply in_or_app.
  apply list_lookup_insert_Some in Hu' as [(_ & <- & _)|(_ & Hu')].
  - simpl in *. injection Hi as <-. right. now left.
  - left. now apply (Hu u').
Qed.

Lemma flush_user_rows st u : rows_match st -> rows_match (flush_user st u).
Proof.
  intros Hr. unfold flush_user.
  destruct (user_objects st !! u) as [obj|]; [|exact Hr].
  pose proof (flush_insert_user_rows u obj st Hr) as Hr1.
  destruct (flush_insert_user u obj st) as [uid st1]; simpl in *.
  now apply flush_comments_rows.
Qed.

Lemma session_commit_rows st : rows_match st -> rows_match (session_commit st).
Proof.
  unfold session_commit. generalize (session st) as us. intros us. revert st.
  induction us as [|u rest IH]; intros st Hr; simpl; [exact Hr|].
  apply IH. now apply flush_user_rows.
Qed.

Lemma new_User_rows name st : rows_match st -> rows_match (snd (new_User name st)).
Proof.
  intros [Hu Hc]. split; simpl; [|exact Hc].
  intros u obj i Hobj Hi.
  apply lookup_app_Some in Hobj as [Hobj|[_ Hobj]]; [now apply (Hu u)|].
  apply list_lookup_singleton_Some in Hobj as [_ <-]. discriminate Hi.
Qed.

Lemma new_Comment_rows comment user st :
  rows_match st -> rows_match (snd (new_Comment comment user st)).
Proof.
  intros [Hu Hc]. split; simpl.
  - intros u obj i Hobj Hi. rewrite list_lookup_alter in Hobj.
    destruct (decide (user = u)) as [<-|_]; [|now apply (Hu u)].
    destruct (user_objects st !! user) as [old|] eqn:Hold; [|discriminate].
    injection Hobj as <-. simpl in *. now apply (Hu user).
  - intros c obj j Hobj Hj.
    apply lookup_app_Some in Hobj as [Hobj|[_ Hobj]]; [now apply (Hc c)|].
    apply list_lookup_singleton_Some in Hobj as [_ <-]. discriminate Hj.
Qed.

Lemma step_rows st o : rows_match st -> rows_match (step st o).
Proof.
  destruct o; simpl.
  - apply new_User_rows.
  - apply new_Comment_rows.
  - intros H; exact H.
  - apply session_commit_rows.
Qed.

End RowsMatch.

(** X11: what is stored is what the objects hold.  In every state the
    statements of the script reach from the empty database, an object which
    carries a key has a row with that key: a [User] row with the object's
    name, a [Comment] row with the object's text and [user_id]. *)
Theorem stored_rows_match_objects (ops : list op) : rows_match (run ops initial).
Proof.
  assert (Hgen : forall st, rows_match st -> rows_match (run ops st)).
  { induction ops as [|o rest IH]; intros st Hr; simpl; [exact Hr|].
    apply IH. now apply step_rows. }
  apply Hgen. split; intros i obj j Hobj; now destruct i.
Qed.

(** ** What a commit stores *)

Section Commit.

Implicit Types (st : state) (u v c : nat) (uid : Z).

Lemma flush_comment_users uid c st :
  user_objects (flush_comment uid c st) = user_objects st /\
  session (flush_comment uid c st) = session st.
Proof.
  unfold flush_comment. destruct (comment_objects st !! c) as [obj|]; [|now split].
  now destruct (c_id obj).
Qed.

Lemma flush_comments_users uid cs : forall st,
  user_objects (fold_left (fun acc c => flush_comment uid c acc) cs st) = user_objects st /\
  session (fold_left (fun acc c => flush_comment uid c acc) cs st) = session st.
Proof.
  induction cs as [|c rest IH]; intros st; simpl; [now split|].
  destruct (IH (flush_comment uid c st)) as [-> ->]. apply flush_comment_users.
Qed.

Lemma flush_comment_stored_mono uid c c' st :
  comment_stored st c' -> comment_stored (flush_comment uid c st) c'.
Proof.
  intros Hst. unfold flush_comment.
  destruct (comment_objects st !! c) as [obj|]; [|exact Hst].
  destruct (c_id obj); [exact Hst|].
  intros obj' Hobj'. simpl in Hobj'.
  apply list_lookup_insert_Some in Hobj' as [(_ & <- & _)|(_ & Hobj')].
  - discriminate.
  - now apply Hst.
Qed.

Lemma flush_comment_stores uid c st : comment_stored (flush_comment uid c st) c.
Proof.
  unfold flush_comment.
  destruct (comment_objects st !! c) as [obj|] eqn:Hobj.
  - destruct (c_id obj) eqn:Hid.
    + intros obj' Hobj'. rewrite Hobj in Hobj'. injection Hobj' as <-.
      rewrite Hid. discriminate.
    + intros obj' Hobj'. simpl in Hobj'.
      apply list_lookup_insert_Some in Hobj' as [(_ & <- & _)|(Hne & _)];
        [discriminate | now elim Hne].
  - intros obj' Hobj'. rewrite Hobj in Hobj'. discriminate.
Qed.

Lemma flush_comments_stored_mono uid cs c' : forall st,
  comment_stored st c' ->
  comment_stored (fold_left (fun acc c => flush_comment uid c acc) cs st) c'.
Proof.
  induction cs as [|c rest IH]; intros st Hst; simpl; [exact Hst|].
  apply IH. now apply flush_comment_stored_mono.
Qed.

Lemma flush_comments_store uid cs : forall st,
  Forall (comment_stored (fold_left (fun acc c => flush_comment uid c acc) cs st)) cs.
Proof.
  induction cs as [|c rest IH]; intros st; simpl; constructor.
  - apply flush_comments_stored_mono, flush_comment_stores.
  - apply IH.
Qed.

Lemma flush_comments_persistent uid cs v st :
  persistent st v ->
  persistent (fold_left (fun acc c => flush_comment uid c acc) cs st) v.
Proof.
  intros Hp obj Hobj.
  rewrite (proj1 (flush_comments_users uid cs st)) in Hobj.
  destruct (Hp obj Hobj) as [Hid Hcs]. split; [exact Hid|].
  apply (List.Forall_impl _ (P := comment_stored st)); [|exact Hcs].
  intros c. apply flush_comments_stored_mono.
Qed.

Lemma flush_insert_user_persistent u obj v st :
  user_objects st !! u = Some obj ->
  persistent st v ->
  persistent (snd (flush_insert_user u obj st)) v.
Proof.
  intros Hu Hp. unfold flush_insert_user.
  destruct (u_id obj) eqn:Hid; [exact Hp|].
  intros obj' Hobj'. simpl in Hobj'.
  apply list_lookup_insert_Some in Hobj' as [(<- & <- & _)|(_ & Hobj')].
  - destruct (Hp obj Hu) as [Hsome _]. now rewrite Hid in Hsome.
  - exact (Hp obj' Hobj').
Qed.

(** After its flush a user and the comments of its collection have keys. *)
Lemma flush_user_stores st u : persistent (flush_user st u) u.
Proof.
  unfold flush_user. destruct (user_objects st !! u) as [obj|] eqn:Hu.
  - assert (Hkey : exists obj1,
               user_objects (snd (flush_insert_user u obj st)) !! u = Some obj1 /\
               u_id obj1 <> None /\ u_comments obj1 = u_comments obj).
    { unfold flush_insert_user. destruct (u_id obj) eqn:Hid; simpl.
      - exists obj. rewrite Hid. now repeat split.
      - exists (mkUserObject (Some (next_id (map row_id (user_table (db st)))))
                               (u_name obj) (u_comments obj)).
        split; [|split; [discriminate | reflexivity]].
        apply list_lookup_insert_eq. now apply lookup_lt_Some in Hu. }
    destruct (flush_insert_user u obj st) as [uid st1]; simpl in *.
    destruct Hkey as (obj1 & Hobj1 & Hid1 & Hcs1).
    intros obj' Hobj'.
    rewrite (proj1 (flush_comments_users uid (u_comments obj) st1)) in Hobj'.
    rewrite Hobj1 in Hobj'. injection Hobj' as <-.
    split; [exact Hid1|]. rewrite Hcs1. apply flush_comments_store.
  - intros obj' Hobj'. rewrite Hu in Hobj'. discriminate.
Qed.

Lemma flush_user_persistent st u v : persistent st v -> persistent (flush_user st u) v.
Proof.
  intros Hp. unfold flush_user.
  destruct (user_objects st !! u) as [obj|] eqn:Hu; [|exact Hp].
  pose proof (flush_insert_user_persistent u obj v st Hu Hp) as Hp1.
  destruct (flush_insert_user u obj st) as [uid st1]; simpl in *.
  now apply flush_comments_persistent.
Qed.

Lemma flush_users_persistent us v : forall st,
  persistent st v -> persistent (fold_left flush_user us st) v.
Proof.
  induction us as [|u rest IH]; intros st Hp; simpl; [exact Hp|].
  apply IH. now apply flush_user_persistent.
Qed.

Lemma flush_users_store us : forall st v,
  In v us -> persistent (fold_left flush_user us st) v.
Proof.
  induction us as [|u rest IH]; intros st v; simpl; [tauto|].
  intros [->|Hin]; [|now apply IH].
  apply flush_users_persistent, flush_user_stores.
Qed.

(** Nothing is left to flush for a user which is stored with its comments. *)
Lemma flush_user_nothing st u : persistent st u -> flush_user st u = st.
Proof.
  intros Hp. unfold flush_user.
  destruct (user_objects st !! u) as [obj|] eqn:Hu; [|reflexivity].
  destruct (Hp obj Hu) as [Hid Hcs]. unfold flush_insert_user.
  destruct (u_id obj) as [i|]; [|now elim Hid].
  induction Hcs as [|c cs Hc _ IH]; simpl; [reflexivity|].
  assert (Hsame : flush_comment i c st = st).
  { unfold flush_comment. destruct (comment_objects st !! c) as [cobj|] eqn:Hcobj;
      [|reflexivity].
    specialize (Hc cobj Hcobj). now destruct (c_id cobj). }
  now rewrite Hsame.
Qed.

Lemma flush_users_nothing us : forall st,
  Forall (persistent st) us -> fold_left flush_user us st = st.
Proof.
  induction us as [|u rest IH]; intros st Hall; simpl; [reflexivity|].
  apply Forall_cons_1 in Hall as [Hu Hrest].
  rewrite (flush_user_nothing st u Hu). now apply IH.
Qed.

Lemma flush_user_session st u : session (flush_user st u) = session st.
Proof.
  unfold flush_user. destruct (user_objects st !! u) as [obj|]; [|reflexivity].
  assert (Hs : session (snd (flush_insert_user u obj st)) = session st).
  { unfold flush_insert_user. now destruct (u_id obj). }
  destruct (flush_insert_user u obj st) as [uid st1]; simpl in *.
  now rewrite (proj2 (flush_comments_users uid (u_comments obj) st1)).
Qed.

Lemma flush_users_session us : forall st,
  session (fold_left flush_user us st) = session st.
Proof.
  induction us as [|u rest IH]; intros st; simpl; [reflexivity|].
  now rewrite IH, flush_user_session.
Qed.

End Commit.

(** X12: the script adds only the user to the session, and the commit
    stores the comments with it.  After [session.commit()], from any state,
    every user of the session carries a key, and so does every comment of
    its collection. *)
Theorem commit_stores_user_and_comments (st : state) (u : nat) :
  In u (session st) -> persistent (session_commit st) u.
Proof.
  intros Hin. unfold session_commit. now apply flush_users_store.
Qed.

Lemma commit_stores_user_and_comments_witness :
  persistent
    (session_commit
       (run [NewUser "Alice"; NewComment "First comment." 0;
             NewComment "Second comment." 0; SessionAdd 0] initial))
    0.
Proof.
  apply (commit_stores_user_and_comments
           (run [NewUser "Alice"; NewComment "First comment." 0;
                 NewComment "Second comment." 0; SessionAdd 0] initial) 0).
  simpl. now left.
Defined.

(** X13: a second commit changes nothing.  From any state, committing
    twice in a row leaves the objects, the session and the tables as the
    first commit left them: no row is inserted again. *)
Theorem commit_twice (st : state) :
  session_commit (session_commit st) = session_commit st.
Proof.
  unfold session_commit at 1.
  replace (session (session_commit st)) with (session st)
    by (unfold session_commit; now rewrite flush_users_session).
  apply flush_users_nothing. apply List.Forall_forall.
  intros u Hin. unfold session_commit. now apply flush_users_store.
Qed.

(** ** Foreign keys and relationships *)

Section Links.

Implicit Types (st : state) (u v c : nat) (uid : Z).

Lemma new_User_links name st :
  collections_owned st /\ keys_follow_users st ->
  collections_owned (snd (new_User name st)) /\
  keys_follow_users (snd (new_User name st)).
Proof.
  intros [Hown Hkeys]. split; simpl.
  - intros u uobj c Hu Hin. simpl in Hu.
    apply lookup_app_Some in Hu as [Hu|[_ Hu]]; [now apply (Hown u uobj)|].
    apply list_lookup_singleton_Some in Hu as [_ <-]. destruct Hin.
  - intros c cobj Hc Hid. simpl in Hc.
    destruct (Hkeys c cobj Hc Hid) as (u & uobj & Huser & Hu & Hrest).
    exists u, uobj. repeat split; try tauto.
    simpl. now apply lookup_app_l_Some.
Qed.

Lemma lookup_alter_comments user c st u uobj' :
  alter (fun x => mkUserObject (u_id x) (u_name x) (u_comments x ++ [c]))
        user (user_objects st) !! u = Some uobj' ->
  exists uobj,
    user_objects st !! u = Some uobj /\
    u_id uobj' = u_id uobj /\
    (u_comments uobj' = u_comments uobj \/
     user = u /\ u_comments uobj' = u_comments uobj ++ [c]).
Proof.
  rewrite list_lookup_alter.
  destruct (decide (user = u)) as [<-|_].
  - destruct (user_objects st !! user) as [old|]; [|discriminate].
    intros [= <-]. exists old. simpl. split; [reflexivity|]. split; [reflexivity|].
    right. now split.
  - intros Hu. exists uobj'. now repeat split; [|left].
Qed.

Lemma new_Comment_links comment user st :
  collections_owned st /\ keys_follow_users st ->
  collections_owned (snd (new_Comment comment user st)) /\
  keys_follow_users (snd (new_Comment comment user st)).
Proof.
  intros [Hown Hkeys]. split.
  - intros u uobj' c Hu Hin. simpl in Hu |- *.
    apply lookup_alter_comments in Hu as (uobj & Hu & _ & Hcs).
    assert (Hold : In c (u_comments uobj) ->
                   exists cobj,
                     (comment_objects st ++
                      [mkCommentObject None comment None (Some user)]) !! c = Some cobj /\
                     c_user cobj = Some u).
    { intros Hc. destruct (Hown u uobj c Hu Hc) as (cobj & Hcobj & Hcu).
      exists cobj. split; [now apply lookup_app_l_Some | exact Hcu]. }
    destruct Hcs as [Hcs|[-> Hcs]]; rewrite Hcs in Hin; [now apply Hold|].
    apply in_app_or in Hin as [Hin|[<-|[]]]; [now apply Hold|].
    exists (mkCommentObject None comment None (Some u)). split; [|reflexivity].
    apply lookup_app_Some. right. split; [lia|]. now rewrite Nat.sub_diag.
  - intros c cobj Hc Hid. simpl in Hc |- *.
    apply lookup_app_Some in Hc as [Hc|[_ Hc]].
    + destruct (Hkeys c cobj Hc Hid) as (u & uobj & Huser & Hu & Hsome & Hfk).
      assert (Hu' : exists uobj',
                 alter (fun x => mkUserObject (u_id x) (u_name x)
                                   (u_comments x ++ [length (comment_objects st)]))
                       user (user_objects st) !! u = Some uobj' /\
                 u_id uobj' = u_id uobj).
      { rewrite list_lookup_alter. destruct (decide (user = u)) as [->|_].
        - rewrite Hu. eexists. split; reflexivity.
        - exists uobj. now split. }
      destruct Hu' as (uobj' & Hu' & Hsame).
      exists u, uobj'. rewrite Hsame. now repeat split.
    + apply list_lookup_singleton_Some in Hc as [_ <-]. now elim Hid.
Qed.

Lemma flush_insert_user_links u obj st :
  user_objects st !! u = Some obj ->
  collections_owned st /\ keys_follow_users st ->
  collections_owned (snd (flush_insert_user u obj st)) /\
  keys_follow_users (snd (flush_insert_user u obj st)).
Proof.
  intros Hu [Hown Hkeys]. unfold flush_insert_user.
  destruct (u_id obj) eqn:Hid; [now split|]. split; simpl.
  - intros v vobj c Hv Hin. simpl in Hv |- *.
    apply list_lookup_insert_Some in Hv as [(<- & <- & _)|(_ & Hv)].
    + now apply (Hown u obj).
    + now apply (Hown v vobj).
  - intros c cobj Hc Hcid. simpl in Hc |- *.
    destruct (Hkeys c cobj Hc Hcid) as (v & vobj & Huser & Hv & Hsome & Hfk).
    exists v, vobj. repeat split; try tauto.
    rewrite list_lookup_insert_ne; [exact Hv|].
    intros <-. rewrite Hu in Hv. injection Hv as <-. now rewrite Hid in Hsome.
Qed.

Lemma flush_insert_user_key u obj st :
  user_objects st !! u = Some obj ->
  exists obj1,
    user_objects (snd (flush_insert_user u obj st)) !! u = Some obj1 /\
    u_id obj1 = Some (fst (flush_insert_user u obj st)) /\
    u_comments obj1 = u_comments obj.
Proof.
  intros Hu. unfold flush_insert_user. destruct (u_id obj) eqn:Hid; simpl.
  - exists obj. now repeat split.
  - exists (mkUserObject (Some (next_id (map row_id (user_table (db st)))))
                         (u_name obj) (u_comments obj)).
    split; [|now split].
    apply list_lookup_insert_eq. now apply lookup_lt_Some in Hu.
Qed.

(** Flushing a comment of the collection of a stored user. *)
Lemma flush_comment_links uid c u uobj st :
  user_objects st !! u = Some uobj ->
  u_id uobj = Some uid ->
  In c (u_comments uobj) ->
  collections_owned st /\ keys_follow_users st ->
  collections_owned (flush_comment uid c st) /\
  keys_follow_users (flush_comment uid c st).
Proof.
  intros Hu Huid Hin [Hown Hkeys].
  destruct (Hown u uobj c Hu Hin) as (cobj & Hcobj & Hcu).
  unfold flush_comment. rewrite Hcobj.
  destruct (c_id cobj) eqn:Hcid; [now split|]. split.
  - intros v vobj c' Hv Hin'. simpl in Hv |- *.
    destruct (Hown v vobj c' Hv Hin') as (cobj' & Hcobj' & Hcv).
    destruct (decide (c = c')) as [<-|Hne].
    + rewrite Hcobj in Hcobj'. injection Hcobj' as <-.
      eexists. split; [apply list_lookup_insert_eq; now apply lookup_lt_Some in Hcobj|].
      exact Hcv.
    + exists cobj'. split; [now rewrite list_lookup_insert_ne | exact Hcv].
  - intros c' cobj' Hc' Hid'. simpl in Hc' |- *.
    apply list_lookup_insert_Some in Hc' as [(_ & <- & _)|(_ & Hc')].
    + exists u, uobj. simpl. repeat split; try tauto.
      * now rewrite Huid.
      * now rewrite Huid.
    + now apply (Hkeys c' cobj').
Qed.

Lemma flush_comments_links uid u uobj cs : forall st,
  user_objects st !! u = Some uobj ->
  u_id uobj = Some uid ->
  Forall (fun c => In c (u_comments uobj)) cs ->
  collections_owned st /\ keys_follow_users st ->
  collections_owned (fold_left (fun acc c => flush_comment uid c acc) cs st) /\
  keys_follow_users (fold_left (fun acc c => flush_comment uid c acc) cs st).
Proof.
  induction cs as [|c rest IH]; intros st Hu Huid Hcs Hl; simpl; [exact Hl|].
  apply Forall_cons_1 in Hcs as [Hc Hrest].
  apply IH; [|exact Huid|exact Hrest|].
  - now rewrite (proj1 (flush_comment_users uid c st)).
  - now apply (flush_comment_links uid c u uobj).
Qed.

Lemma flush_user_links st u :
  collections_owned st /\ keys_follow_users st ->
  collections_owned (flush_user st u) /\ keys_follow_users (flush_user st u).
Proof.
  intros Hl. unfold flush_user.
  destruct (user_objects st !! u) as [obj|] eqn:Hu; [|exact Hl].
  pose proof (flush_insert_user_links u obj st Hu Hl) as Hl1.
  destruct (flush_insert_user_key u obj st Hu) as (obj1 & Hobj1 & Hid1 & Hcs1).
  destruct (flush_insert_user u obj st) as [uid st1]; simpl in *.
  apply (flush_comments_links uid u obj1); try assumption.
  rewrite Hcs1. now apply List.Forall_forall.
Qed.

Lemma session_commit_links st :
  collections_owned st /\ keys_follow_users st ->
  collections_owned (session_commit st) /\ keys_follow_users (session_commit st).
Proof.
  unfold session_commit. generalize (session st) as us. intros us. revert st.
  induction us as [|u rest IH]; intros st Hl; simpl; [exact Hl|].
  apply IH. now apply flush_user_links.
Qed.

Lemma step_links st o :
  collections_owned st /\ keys_follow_users st ->
  collections_owned (step st o) /\ keys_follow_users (step st o).
Proof.
  destruct o; simpl.
  - apply new_User_links.
  - apply new_Comment_links.
  - intros H; exact H.
  - apply session_commit_links.
Qed.

End Links.

Lemma run_links (ops : list op) :
  collections_owned (run ops initial) /\ keys_follow_users (run ops initial).
Proof.
  assert (Hgen : forall st,
             collections_owned st /\ keys_follow_users st ->
             collections_owned (run ops st) /\ keys_follow_users (run ops st)).
  { induction ops as [|o rest IH]; intros st Hl; simpl; [exact Hl|].
    apply IH. now apply step_links. }
  apply Hgen. split.
  - intros u uobj c Hu. now destruct u.
  - intros c cobj Hc. now destruct c.
Qed.

(** X14: the foreign key follows the relationship.  In every state the
    statements of the script reach from the empty database, a comment in
    the collection of a user is a comment built with that user, and a stored
    comment has as [user_id] the key of the user it was built with, which is
    stored too. *)
Theorem user_id_follows_user (ops : list op) :
  collections_owned (run ops initial) /\ keys_follow_users (run ops initial).
Proof. apply run_links. Qed.

(** ** Serializing what was committed *)

Lemma bare_identified_returns (u : orm_user) :
  attr_uid u <> None ->
  Forall (fun c => attr_id c <> None /\ attr_user_id c <> None) (attr_comments u) ->
  exists v, bare u = Returned v.
Proof.
  intros Hid Hcs. unfold bare, serialize, UserSerializer_from_orm.
  destruct (attr_uid u) as [i|]; [|now elim Hid]. simpl.
  destruct (validate_all_all CommentSerializer_from_orm (attr_comments u))
    as [cs ->]; [|eauto].
  apply (List.Forall_impl _ (P := fun c => attr_id c <> None /\ attr_user_id c <> None));
    [|exact Hcs].
  intros [[ci|] text [cu|]] [H1 H2]; try (now elim H1); try (now elim H2).
  eexists. reflexivity.
Qed.

Lemma read_comments_identified (st : state) (cs : list nat) :
  keys_follow_users st ->
  Forall (comment_stored st) cs ->
  Forall (fun c => attr_id c <> None /\ attr_user_id c <> None)
         (omap (fun c => option_map read_comment (comment_objects st !! c)) cs).
Proof.
  intros Hkeys Hcs. induction Hcs as [|c rest Hc _ IH]; simpl; [constructor|].
  destruct (comment_objects st !! c) as [cobj|] eqn:Hcobj; simpl; [|exact IH].
  constructor; [|exact IH]. simpl.
  specialize (Hc cobj Hcobj). split; [exact Hc|].
  destruct (Hkeys c cobj Hcobj Hc) as (u & uobj & _ & _ & Hsome & ->). exact Hsome.
Qed.

(** X15: after the commit the serializer with identifiers accepts the user.
    Whatever statements of the script came before, once a user is in the
    session and the session is committed, [UserSerializer.from_orm(user)
    .dict()] returns: no identifier it reads is missing. *)
Theorem bare_returns_after_commit (ops : list op) (u : nat) (obj : orm_user) :
  In u (session (run ops initial)) ->
  read_user (session_commit (run ops initial)) u = Some obj ->
  exists v, bare obj = Returned v.
Proof.
  intros Hin Hread.
  assert (Hp : persistent (session_commit (run ops initial)) u)
    by (unfold session_commit; now apply flush_users_store).
  assert (Hkeys : keys_follow_users (session_commit (run ops initial)))
    by (apply session_commit_links, run_links).
  unfold read_user in Hread.
  destruct (user_objects (session_commit (run ops initial)) !! u) as [uobj|] eqn:Hu;
    [|discriminate].
  injection Hread as <-. destruct (Hp uobj Hu) as [Hid Hcs].
  apply bare_identified_returns; simpl; [exact Hid|].
  now apply read_comments_identified.
Qed.

Lemma bare_returns_after_commit_witness :
  exists v,
    bare (mkOrmUser (Some 1%Z) "Alice"
            [mkOrmComment (Some 1%Z) "First comment." (Some 1%Z);
             mkOrmComment (Some 2%Z) "Second comment." (Some 1%Z)]) = Returned v.
Proof.
  apply (bare_returns_after_commit
           [NewUser "Alice"; NewComment "First comment." 0;
            NewComment "Second comment." 0; SessionAdd 0] 0).
  - simpl. now left.
  - reflexivity.
Defined.

(** ** Registering watches *)

Section Watches.

Implicit Types (server : Server) (tasks : list watched) (t : watched).

Lemma set_task_find t tasks :
  find (fun t' => String.eqb (filepath t') (filepath t)) (set_task t tasks) = Some t.
Proof.
  induction tasks as [|t' rest IH]; simpl.
  - now rewrite String.eqb_refl.
  - destruct (String.eqb (filepath t') (filepath t)) eqn:Heq; simpl.
    + now rewrite String.eqb_refl.
    + now rewrite Heq.
Qed.

Lemma set_task_find_other t tasks (path : string) :
  path <> filepath t ->
  find (fun t' => String.eqb (filepath t') path) (set_task t tasks) =
  find (fun t' => String.eqb (filepath t') path) tasks.
Proof.
  intros Hne. induction tasks as [|t' rest IH]; simpl.
  - destruct (String.eqb_spec (filepath t) path) as [Heq|_]; [now elim Hne | reflexivity].
  - destruct (String.eqb_spec (filepath t') (filepath t)) as [Heq|_]; simpl.
    + destruct (String.eqb_spec (filepath t) path) as [Heq'|_]; [now elim Hne|].
      rewrite Heq.
      destruct (String.eqb_spec (filepath t) path) as [Heq'|_]; [now elim Hne|].
      reflexivity.
    + now rewrite IH.
Qed.

Lemma set_task_paths t tasks :
  map filepath (set_task t tasks) =
  if existsb (fun t' => String.eqb (filepath t') (filepath t)) tasks
  then map filepath tasks
  else map filepath tasks ++ [filepath t].
Proof.
  induction tasks as [|t' rest IH]; simpl; [reflexivity|].
  destruct (String.eqb_spec (filepath t') (filepath t)) as [Heq|_]; simpl.
  - now rewrite Heq.
  - rewrite IH.
    now destruct (existsb (fun t' => String.eqb (filepath t') (filepath t)) rest).
Qed.

End Watches.

(** X16: [watch] keeps one task per path.  After [server.watch(path, func,
    delay)], the task found for [path] is the one just given, the task found
    for any other path is the one found before, and the list of watched
    paths is the old one, with [path] added at its end when it was not
    watched yet. *)
Theorem watch_registers (server : Server) (pattern : string) (f : task) (d : Z) :
  find (fun t => String.eqb (filepath t) pattern)
       (watches (watch server pattern f d)) = Some (mkWatched pattern f (Some d)) /\
  (forall other,
      other <> pattern ->
      find (fun t => String.eqb (filepath t) other) (watches (watch server pattern f d)) =
      find (fun t => String.eqb (filepath t) other) (watches server)) /\
  map filepath (watches (watch server pattern f d)) =
    (if existsb (fun t => String.eqb (filepath t) pattern) (watches server)
     then map filepath (watches server)
     else map filepath (watches server) ++ [pattern]).
Proof.
  unfold watch; simpl. split; [|split].
  - apply (set_task_find (mkWatched pattern f (Some d))).
  - intros other Hne. now apply set_task_find_other.
  - apply (set_task_paths (mkWatched pattern f (Some d))).
Qed.
